(** * succinctx: SSZ Merkle gadgets and the circuit-function pipeline

    A shallow embedding of [ethereum/ssz/ssz.go] and
    [gnarkx/succinct/circuit.go].  Circuit values are modelled by the
    integers the wires carry at witness time; the SHA-256 gadget and the
    proving back end are external collaborators and appear as section
    variables. *)

From Stdlib Require Import ZArith List Lia String.
From stdpp Require Import base tactics option list vector strings.

Local Open Scope Z_scope.

(** ** Go machine integers *)

(** Go's [int] on the 64-bit targets the repository builds for. *)
Definition int_min : Z := - 2 ^ 63.
Definition int_max : Z := 2 ^ 63 - 1.

Definition in_int (z : Z) : Prop := int_min <= z <= int_max.

(** Two's-complement wrap-around of an arithmetic result into [int]. *)
Definition wrap_int (z : Z) : Z := (z + 2 ^ 63) mod 2 ^ 64 - 2 ^ 63.

(** Go's [/] and [%] on integers truncate towards zero. *)
Definition go_div (a b : Z) : Z := Z.quot a b.
Definition go_mod (a b : Z) : Z := Z.rem a b.

(** ** Counted loops

    [for i := lo; i < lo + n; i++ { s = body i s }]. *)
Fixpoint for_range {St : Type} (lo : nat) (n : nat) (body : nat -> St -> St) (s : St) : St :=
  match n with
  | O => s
  | S n' => for_range (S lo) n' body (body lo s)
  end.

(** ** Outcomes of code that may panic *)

Inductive outcome (A : Type) : Type :=
  | Ok (a : A)
  | Panic (msg : string).
Arguments Ok {A} a.
Arguments Panic {A} msg.

#[global] Instance outcome_ret : MRet outcome := fun _ a => Ok a.
#[global] Instance outcome_bind : MBind outcome := fun _ _ k m =>
  match m with
  | Ok a => k a
  | Panic msg => Panic msg
  end.

(** A slice or array read [l[i]]; Go panics when [i] is out of range. *)
Definition index {A : Type} (l : list A) (i : nat) : outcome A :=
  match l !! i with
  | Some a => Ok a
  | None => Panic "index out of range"
  end.

(** A slice write [l[i] = v]. *)
Definition assign {A : Type} (l : list A) (i : nat) (v : A) : outcome (list A) :=
  if decide (i < length l)%nat then Ok (<[i := v]> l) else Panic "index out of range".

(** ** Digests *)

(** [[32]vars.Byte]: the value each of the 32 byte wires carries. *)
Abbreviation Bytes32 := (vec Z 32).

(** [x[:]] on an array. *)
Abbreviation bytes := vec_to_list.

Definition zero_digest : Bytes32 := vreplicate 32 0.

Module Ssz.

Section WithHash.

(** [sha256.Hash(api, input)]: the digest the gadget's output wires carry. *)
Variable Hash : list Z -> Bytes32.

(** *** RestoreMerkleRoot (constant gindex) *)

Definition restore_step (proof : list Bytes32) (i : nat) (st : Bytes32 * Z) : Bytes32 * Z :=
  let '(hash, gindex) := st in
  let sibling := proof !!! i in
  let hash' :=
    if go_mod gindex 2 =? 1
    then Hash (bytes sibling ++ bytes hash)
    else Hash (bytes hash ++ bytes sibling) in
  (hash', go_div gindex 2).

(** The loop state after the first [n] levels. *)
Definition restore_state (leaf : Bytes32) (proof : list Bytes32) (gindex : Z) (n : nat)
  : Bytes32 * Z :=
  for_range 0 n (restore_step proof) (leaf, gindex).

Definition RestoreMerkleRoot (leaf : Bytes32) (proof : list Bytes32) (gindex : Z) : Bytes32 :=
  fst (restore_state leaf proof gindex (length proof)).

(** The traversal rule in the specification's words: level [i] looks at
    the gindex after [i] halvings; an odd value puts the sibling first,
    an even value puts the accumulated hash first. *)
Fixpoint spec_level (leaf : Bytes32) (proof : list Bytes32) (gindex : Z) (i : nat) : Bytes32 :=
  match i with
  | O => leaf
  | S j =>
      let acc := spec_level leaf proof gindex j in
      let sibling := proof !!! j in
      if Z.odd (gindex / 2 ^ Z.of_nat j)
      then Hash (bytes sibling ++ bytes acc)
      else Hash (bytes acc ++ bytes sibling)
  end.

(** *** RestoreMerkleRootWithGIndexVariable *)

(** Modelled from the spec: [api.ToBinaryLE(v, n)] of the missing
    [succinct.API], the [n] low bits of [v], least significant first. *)
Definition ToBinaryLE (v : Z) (n : nat) : list bool :=
  map (fun i => Z.testbit v (Z.of_nat i)) (seq 0 n).

(** Modelled from the spec: [api.SelectBytes32(bit, a, b)] of the missing
    [succinct.API], the first digest when the bit is set and the second
    otherwise. *)
Definition SelectBytes32 (bit : bool) (a b : Bytes32) : Bytes32 :=
  if bit then a else b.

Definition restore_var_step (proof : list Bytes32) (gindexBits : list bool)
    (i : nat) (hash : Bytes32) : Bytes32 :=
  let hash1 := Hash (bytes (proof !!! i) ++ bytes hash) in
  let hash2 := Hash (bytes hash ++ bytes (proof !!! i)) in
  SelectBytes32 (gindexBits !!! i) hash1 hash2.

Definition RestoreMerkleRootWithGIndexVariable
    (leaf : Bytes32) (proof : list Bytes32) (gindex : Z) : Bytes32 :=
  let gindexBits := ToBinaryLE gindex (length proof + 1) in
  for_range 0 (length proof) (restore_var_step proof gindexBits) leaf.

(** *** The constraint store of the front end *)

Record constraint := AssertEq { lhs : Z; rhs : Z }.

(** [frontend.API] as far as these gadgets use it: the equalities
    asserted so far, oldest first. *)
Definition frontend := list constraint.

Definition AssertIsEqual (a b : Z) (api : frontend) : frontend :=
  api ++ [AssertEq a b].

Definition holds (c : constraint) : bool := lhs c =? rhs c.

Definition satisfied (api : frontend) : bool := forallb holds api.

(** *** VerifyProof *)

Definition VerifyProof (root leaf : Bytes32) (proof : list Bytes32) (gindex : Z)
    (api : frontend) : frontend :=
  let restoredRoot := RestoreMerkleRoot leaf proof gindex in
  for_range 0 32
    (fun i api => AssertIsEqual (bytes root !!! i) (bytes restoredRoot !!! i) api) api.

Definition VerifyProofWithGIndexVariable (root leaf : Bytes32) (proof : list Bytes32)
    (gindex : Z) (api : frontend) : frontend :=
  let restoredRoot := RestoreMerkleRootWithGIndexVariable leaf proof gindex in
  for_range 0 32
    (fun i api => AssertIsEqual (bytes root !!! i) (bytes restoredRoot !!! i) api) api.

(** *** HashTreeRoot *)

(** The body of the inner loop, [leaves[i] = Hash(leaves[i*2] ++ leaves[i*2+1])],
    on the slice the caller handed in; a panic ends the call. *)
Definition reduce_step (i : nat) (st : outcome (list Bytes32)) : outcome (list Bytes32) :=
  leaves ← st;
  l ← index leaves (i * 2);
  r ← index leaves (i * 2 + 1);
  assign leaves i (Hash (bytes l ++ bytes r)).

(** [for i := 0; i < nbLeaves/2; i++ { ... }]. *)
Definition reduce_pass (leaves : list Bytes32) (nbLeaves : Z) : outcome (list Bytes32) :=
  for_range 0 (Z.to_nat (go_div nbLeaves 2)) reduce_step (Ok leaves).

(** [for nbLeaves > 1 { pass; nbLeaves = nbLeaves / 2 }], by recursion on
    the binary digits of a positive [nbLeaves]: halving drops the lowest
    digit. *)
Fixpoint reduce_loop_pos (nbLeaves : positive) (leaves : list Bytes32)
  : outcome (list Bytes32) :=
  match nbLeaves with
  | xH => Ok leaves
  | xO half | xI half =>
      leaves' ← reduce_pass leaves (Zpos nbLeaves);
      reduce_loop_pos half leaves'
  end.

Definition reduce_loop (leaves : list Bytes32) (nbLeaves : Z) : outcome (list Bytes32) :=
  match nbLeaves with
  | Zpos p => reduce_loop_pos p leaves
  | _ => Ok leaves
  end.

(** The call returns the slice contents it leaves behind together with
    the digest, since the caller's [leaves] shares the backing array. *)
Definition HashTreeRoot (leaves : list Bytes32) (nbLeaves : Z)
  : outcome (list Bytes32 * Bytes32) :=
  if negb (Z.land nbLeaves (wrap_int (nbLeaves - 1)) =? 0)
  then Panic "nbLeaves must be a power of 2"
  else
    leaves' ← reduce_loop leaves nbLeaves;
    root ← index leaves' 0;
    mret (leaves', root).

(** Adjacent pairs hashed left to right: one level up the tree. *)
Fixpoint pair_hashes (l : list Bytes32) : list Bytes32 :=
  match l with
  | a :: b :: rest => Hash (bytes a ++ bytes b) :: pair_hashes rest
  | _ => []
  end.

(** Level [j] of the tree above the leaves [l]. *)
Definition tree_level (j : nat) (l : list Bytes32) : list Bytes32 :=
  Nat.iter j pair_hashes l.

End WithHash.

End Ssz.

(** ** A concrete hash for running the definitions

    An order-sensitive stand-in for SHA-256, used only to evaluate the
    model on concrete inputs. *)
Definition mix (l : list Z) (seed : Z) : Z :=
  fold_left (fun a b => (a * 131 + b + 1) mod 65521) l seed.

Definition sample_hash (l : list Z) : Bytes32 :=
  fun_to_vec (fun i : fin 32 => mix l (Z.of_nat (fin_to_nat i)) mod 256).

Definition sample_s0 : Bytes32 := vreplicate 32 1.
Definition sample_s1 : Bytes32 := vreplicate 32 2.
Definition sample_s2 : Bytes32 := vreplicate 32 3.

(** ** Host-side integers and byte strings *)

(** [new(big.Int).SetBytes(b)]: the bytes read as a big-endian unsigned
    integer. *)
Definition SetBytes (b : list Z) : Z :=
  fold_left (fun acc x => acc * 256 + x) b 0.

(** Byte [i] of the [n]-byte big-endian form of [z]. *)
Definition be_byte (z : Z) (n i : nat) : Z :=
  (z / 256 ^ Z.of_nat (n - 1 - i)) mod 256.

(** [z.FillBytes(buf)] with [len(buf) = n]: the big-endian bytes of the
    absolute value, zero-extended on the left; it panics when the value
    needs more than [n] bytes. *)
Definition FillBytes (z : Z) (n : nat) : outcome (list Z) :=
  if Z.abs z <? 256 ^ Z.of_nat n
  then Ok (map (be_byte (Z.abs z) n) (seq 0 n))
  else Panic "math/big: buffer too small to fit value".

(** [z.Bytes()]: the big-endian bytes of the absolute value without
    leading zeros. *)
Definition Bytes (z : Z) : list Z :=
  let n := if Z.abs z =? 0 then O else Z.to_nat (Z.log2 (Z.abs z) / 8 + 1) in
  map (be_byte (Z.abs z) n) (seq 0 n).

(** A Go slice: the cells of its backing array from its first element up
    to its capacity, the first [len] of which are its elements. *)
Record go_slice (A : Type) := GoSlice { array : list A; len : nat }.
Arguments GoSlice {A} array len.
Arguments array {A} g.
Arguments len {A} g.

Definition cap {A : Type} (s : go_slice A) : nat := length (array s).

Definition elements {A : Type} (s : go_slice A) : list A := take (len s) (array s).

(** [s[lo:hi]] on a slice: Go checks [lo <= hi <= cap(s)], so the
    expression may reach past [len(s)] into the backing array; the
    elements of the result are the cells [lo], ..., [hi-1]. *)
Definition slice {A : Type} (s : go_slice A) (lo hi : nat) : outcome (list A) :=
  if decide (lo <= hi <= cap s)%nat
  then Ok (take (hi - lo) (drop lo (array s)))
  else Panic "slice bounds out of range".

(** The unsigned integer a byte string denotes, most significant byte
    first: the sum of [b_j * 256^(n-1-j)] over its [n] bytes. *)
Fixpoint big_endian (l : list Z) : Z :=
  match l with
  | [] => 0
  | b :: rest => b * 256 ^ Z.of_nat (length rest) + big_endian rest
  end.

Definition is_byte (b : Z) : Prop := 0 <= b < 256.

(** The integer denoted by the 32 cells from offset [32 * i]. *)
Definition proof_word (raw : list Z) (i : nat) : Z :=
  big_endian (take 32 (drop (32 * i) raw)).

Module Succinct.

(** Go [error] values as the pipeline builds and receives them. *)
Inductive error : Type :=
  | ErrorString (msg : string)
  | PathError (op path : string) (err : error)
  | Wrapped (prefix : string) (err : error).

(** [err.Error()]; [Wrapped p e] is [fmt.Errorf(p + ": %w", e)]. *)
Fixpoint error_text (e : error) : string :=
  match e with
  | ErrorString msg => msg
  | PathError op path err => op +:+ " " +:+ path +:+ ": " +:+ error_text err
  | Wrapped prefix err => prefix +:+ ": " +:+ error_text err
  end.

(** A [(T, error)] return. *)
Inductive result (A : Type) : Type :=
  | Success (a : A)
  | Failure (err : error).
Arguments Success {A} a.
Arguments Failure {A} err.

(** [vars.Variable]: [Value] is unset until [Set] stores a [*big.Int]. *)
Definition vars_Variable := option Z.

Record assertion := AssertEq { lhs : vars_Variable; rhs : vars_Variable }.

(** The builder behind [frontend.API]: the equalities asserted so far. *)
Definition frontend := list assertion.

Definition AssertIsEqual (a b : vars_Variable) (api : frontend) : frontend :=
  api ++ [AssertEq a b].

(** An equality holds once both sides are assigned the same value. *)
Definition holds (c : assertion) : bool :=
  match lhs c, rhs c with
  | Some x, Some y => x =? y
  | _, _ => false
  end.

Definition satisfied (api : frontend) : bool := forallb holds api.

(** A pointer into a circuit struct: what a load through it reads and
    what a store through it leaves behind. *)
Record pointer (C A : Type) := Pointer { load : C -> A; store : A -> C -> C }.
Arguments Pointer {C A} load store.
Arguments load {C A} p c.
Arguments store {C A} p a c.

(** The [Circuit] interface; [vars.Byte] wires carry integers. *)
Class Circuit (C : Type) : Type := {
  circuit_SetWitness : list Z -> C -> C;
  circuit_Define : frontend -> C -> frontend * option error;
  GetInputBytes : pointer C (list Z);
  GetOutputBytes : pointer C (list Z)
}.

(** What the program prints and does to files. *)
Inductive event : Type :=
  | PrintHex (label : string) (data : list Z)
  | PrintErr (label : string) (err : error)
  | MkdirAll (path : string)
  | Create (path : string)
  | Open (path : string)
  | Write (path : string)
  | Read (path : string)
  | Close (path : string)
  | NilDereference.

(** [types.Groth16Proof]. *)
Record Groth16Proof := {
  A : Z * Z;
  B : (Z * Z) * (Z * Z);
  C : Z * Z;
  InputHash : list Z;
  OutputHash : list Z
}.

Section Pipeline.

(** SHA-256 on host bytes, 32 bytes out. *)
Variable sha256 : list Z -> list Z.

(** Modelled from the spec: [sha256utils.HashAndTruncate(bytes, nbBits)]
    and its in-circuit twin [sha256.HashAndTruncate(api, bytes, nbBits)],
    whose sources are missing: the digest as a big-endian integer, cut to
    its low [nbBits] bits ([sha256(bytes) & ((1 << nbBits) - 1)]). *)
Definition HashAndTruncate (bytes : list Z) (nbBits : nat) : Z :=
  Z.land (SetBytes (sha256 bytes)) (Z.ones (Z.of_nat nbBits)).

Context {Ckt : Type} `{Circuit Ckt}.

Record CircuitFunction := {
  cf_InputHash : vars_Variable;
  cf_OutputHash : vars_Variable;
  circuit : Ckt
}.

(** [vars.NewVariable()] leaves the value unset. *)
Definition NewCircuitFunction (c : Ckt) : CircuitFunction :=
  {| cf_InputHash := None; cf_OutputHash := None; circuit := c |}.

(** Modelled from the spec: [vars.SetBytes(ptr, values)], whose source is
    missing, assigns the byte wires behind [ptr] from [values]. *)
Definition vars_SetBytes (ptr : pointer Ckt (list Z)) (values : list Z) (c : Ckt) : Ckt :=
  store ptr values c.

(** Modelled from the spec: [vars.GetValuesUnsafe(bytes)], whose source is
    missing, reads the values the byte wires carry. *)
Definition vars_GetValuesUnsafe (wires : list Z) : list Z := wires.

(** [f.SetWitness(inputBytes)]: the updated function and what it printed. *)
Definition SetWitness (inputBytes : list Z) (f : CircuitFunction)
  : CircuitFunction * list event :=
  let c1 := vars_SetBytes GetInputBytes inputBytes (circuit f) in
  let c2 := circuit_SetWitness inputBytes c1 in
  let inputHash := HashAndTruncate inputBytes 253 in
  let out1 := [PrintHex "inputHash" (Bytes inputHash)] in
  let outputBytes := load GetOutputBytes c2 in
  let outputBytesValues := vars_GetValuesUnsafe outputBytes in
  let out2 := out1 ++ [PrintHex "outputBytes" outputBytesValues] in
  let outputHash := HashAndTruncate outputBytesValues 253 in
  let out3 := out2 ++ [PrintHex "outputHash" (Bytes outputHash)] in
  ({| cf_InputHash := Some inputHash; cf_OutputHash := Some outputHash; circuit := c2 |},
   out3).

(** [f.Define(baseApi)]: the error of the embedded [Define] is dropped
    and the result is always [nil]. *)
Definition Define (baseApi : frontend) (f : CircuitFunction) : frontend * option error :=
  let '(api, _) := circuit_Define baseApi (circuit f) in
  let inputHash := Some (HashAndTruncate (load GetInputBytes (circuit f)) 253) in
  let outputHash := Some (HashAndTruncate (load GetOutputBytes (circuit f)) 253) in
  let api := AssertIsEqual (cf_InputHash f) inputHash api in
  let api := AssertIsEqual (cf_OutputHash f) outputHash api in
  (api, None).

(** The proving back end. *)
Variables ConstraintSystem ProvingKey VerifyingKey Witness Proof : Type.

(** What the compiler makes of the constraints a [Define] recorded, and
    how it reports an error a [Define] returned. *)
Variable compile_constraints : frontend -> result ConstraintSystem.
Variable define_error : error -> error.

(** [frontend.Compile(field, r1cs.NewBuilder, circuit)]: runs the
    circuit's [Define] on a fresh builder and fails when it returns an
    error. *)
Definition Compile (define : frontend -> frontend * option error)
  : result ConstraintSystem :=
  match define [] with
  | (_, Some err) => Failure (define_error err)
  | (api, None) => compile_constraints api
  end.

Variable groth16_Setup : ConstraintSystem -> result (ProvingKey * VerifyingKey).

(** [vk] is [nil] in a build that was imported. *)
Record CircuitBuild := {
  pk : ProvingKey;
  vk : option VerifyingKey;
  r1cs : ConstraintSystem
}.

Definition Build (f : CircuitFunction) : result CircuitBuild :=
  match Compile (fun api => Define api f) with
  | Failure err => Failure err
  | Success cs =>
      match groth16_Setup cs with
      | Failure err => Failure err
      | Success (pkey, vkey) => Success {| pk := pkey; vk := Some vkey; r1cs := cs |}
      end
  end.

(** How the operating system and the decoders answer. *)
Record os := {
  os_MkdirAll : string -> option error;
  os_Create : string -> option error;
  os_Open : string -> option error;
  WriteTo : string -> option error;
  ExportIFunctionVerifierSolidity : option error;
  pk_ReadFrom : result ProvingKey;
  r1cs_ReadFrom : result ConstraintSystem
}.

(** [build.Export()] has no result: all the caller can observe is what
    was printed and done to files.  A deferred [Close] runs when the
    function returns, last opened first. *)
Definition Export (env : os) (build : CircuitBuild) : list event :=
  match os_MkdirAll env "build" with
  | Some err => [PrintErr "Failed to create directory:" err]
  | None => MkdirAll "build" ::
  match os_Create env "build/r1cs.bin" with
  | Some err => [PrintErr "Failed to create file:" err]
  | None => Create "build/r1cs.bin" :: (
  match WriteTo env "build/r1cs.bin" with
  | Some err => [PrintErr "Failed to write data:" err]
  | None => Write "build/r1cs.bin" ::
  match os_Create env "build/pkey.bin" with
  | Some err => [PrintErr "Failed to create file:" err]
  | None => Create "build/pkey.bin" :: (
  match WriteTo env "build/pkey.bin" with
  | Some err => [PrintErr "Failed to write data:" err]
  | None => Write "build/pkey.bin" ::
  match os_Create env "build/vkey.bin" with
  | Some err => [PrintErr "Failed to create file:" err]
  | None => Create "build/vkey.bin" :: (
  match vk build with
  | None => [NilDereference]
  | Some _ =>
  match WriteTo env "build/vkey.bin" with
  | Some err => [PrintErr "Failed to write data:" err]
  | None => Write "build/vkey.bin" ::
  match os_Create env "build/FunctionVerifier.sol" with
  | Some err => [PrintErr "Failed to create file:" err]
  | None => Create "build/FunctionVerifier.sol" :: (
  match ExportIFunctionVerifierSolidity env with
  | Some err => [PrintErr "Failed to export solidity verifier:" err]
  | None => [Write "build/FunctionVerifier.sol"]
  end) ++ [Close "build/FunctionVerifier.sol"]
  end end end) ++ [Close "build/vkey.bin"]
  end end) ++ [Close "build/pkey.bin"]
  end end) ++ [Close "build/r1cs.bin"]
  end end.

(** The export as a list of steps: the answer of the environment, the
    message printed when it is an error, what is recorded when it is not,
    and the file the step leaves open until the function returns. *)
Record export_step := {
  answer : option error;
  failure_label : string;
  done_event : event;
  opened : option string
}.

Definition export_steps (env : os) : list export_step :=
  [ {| answer := os_MkdirAll env "build"; failure_label := "Failed to create directory:";
       done_event := MkdirAll "build"; opened := None |};
    {| answer := os_Create env "build/r1cs.bin"; failure_label := "Failed to create file:";
       done_event := Create "build/r1cs.bin"; opened := Some "build/r1cs.bin" |};
    {| answer := WriteTo env "build/r1cs.bin"; failure_label := "Failed to write data:";
       done_event := Write "build/r1cs.bin"; opened := None |};
    {| answer := os_Create env "build/pkey.bin"; failure_label := "Failed to create file:";
       done_event := Create "build/pkey.bin"; opened := Some "build/pkey.bin" |};
    {| answer := WriteTo env "build/pkey.bin"; failure_label := "Failed to write data:";
       done_event := Write "build/pkey.bin"; opened := None |};
    {| answer := os_Create env "build/vkey.bin"; failure_label := "Failed to create file:";
       done_event := Create "build/vkey.bin"; opened := Some "build/vkey.bin" |};
    {| answer := WriteTo env "build/vkey.bin"; failure_label := "Failed to write data:";
       done_event := Write "build/vkey.bin"; opened := None |};
    {| answer := os_Create env "build/FunctionVerifier.sol";
       failure_label := "Failed to create file:";
       done_event := Create "build/FunctionVerifier.sol";
       opened := Some "build/FunctionVerifier.sol" |};
    {| answer := ExportIFunctionVerifierSolidity env;
       failure_label := "Failed to export solidity verifier:";
       done_event := Write "build/FunctionVerifier.sol"; opened := None |} ].

(** Steps run in order; the first error is printed and ends the run. *)
Fixpoint run_steps (steps : list export_step) : list event :=
  match steps with
  | [] => []
  | st :: rest =>
      match answer st with
      | Some err => [PrintErr (failure_label st) err]
      | None =>
          done_event st ::
          match opened st with
          | Some path => run_steps rest ++ [Close path]
          | None => run_steps rest
          end
      end
  end.

Definition ImportCircuitBuild (env : os) : result CircuitBuild * list event :=
  match os_Open env "build/pkey.bin" with
  | Some err => (Failure (Wrapped "failed to open file" err), [])
  | None =>
  match pk_ReadFrom env with
  | Failure err =>
      (Failure (Wrapped "failed to read data" err),
       [Open "build/pkey.bin"; Close "build/pkey.bin"])
  | Success pkey =>
  match os_Open env "build/r1cs.bin" with
  | Some err =>
      (Failure (Wrapped "failed to open file" err),
       [Open "build/pkey.bin"; Read "build/pkey.bin"; Close "build/pkey.bin"])
  | None =>
  match r1cs_ReadFrom env with
  | Failure err =>
      (Failure (Wrapped "failed to read data" err),
       [Open "build/pkey.bin"; Read "build/pkey.bin"; Open "build/r1cs.bin";
        Close "build/r1cs.bin"; Close "build/pkey.bin"])
  | Success cs =>
      (Success {| pk := pkey; vk := None; r1cs := cs |},
       [Open "build/pkey.bin"; Read "build/pkey.bin"; Open "build/r1cs.bin";
        Read "build/r1cs.bin"; Close "build/r1cs.bin"; Close "build/pkey.bin"])
  end end end end.

(** The prover.  [groth16.Prove] draws fresh randomness on every call;
    [Entropy] is what one call draws.  [WriteRawTo] gives what
    [buf.Bytes()] is after [proof.WriteRawTo(&buf)] on the fresh buffer:
    the serialisation as its elements, in a backing array whose capacity
    the buffer chose. *)
Variable Entropy : Type.
Variable frontend_NewWitness : CircuitFunction -> result Witness.
Variable groth16_Prove :
  ConstraintSystem -> ProvingKey -> Witness -> Entropy -> result Proof.
Variable WriteRawTo : Proof -> go_slice Z.

Definition fpSize : nat := 4 * 8.

(** The type assertion of [v.Value] to a big integer pointer. *)
Definition as_big_Int (v : vars_Variable) : outcome Z :=
  match v with
  | Some z => Ok z
  | None => Panic "interface conversion: interface is nil, not *big.Int"
  end.

(** [f.Prove(inputBytes, build)] in a call whose prover draws [entropy]:
    the returned pair, the function as [SetWitness] left it and what was
    printed; a panic ends the call.  [solver.RegisterHint()] registers
    nothing and [WriteRawTo]'s error is not looked at. *)
Definition Prove (entropy : Entropy) (inputBytes : list Z) (build : CircuitBuild)
    (f : CircuitFunction)
  : outcome (result Groth16Proof * CircuitFunction * list event) :=
  let '(f, out) := SetWitness inputBytes f in
  match frontend_NewWitness f with
  | Failure err => Ok (Failure (Wrapped "failed to create witness" err), f, out)
  | Success witness =>
  match groth16_Prove (r1cs build) (pk build) witness entropy with
  | Failure err => Ok (Failure (Wrapped "failed to generate proof" err), f, out)
  | Success proof =>
      let proofBytes := WriteRawTo proof in
      a0 ← slice proofBytes (fpSize * 0) (fpSize * 1);
      a1 ← slice proofBytes (fpSize * 1) (fpSize * 2);
      b00 ← slice proofBytes (fpSize * 2) (fpSize * 3);
      b01 ← slice proofBytes (fpSize * 3) (fpSize * 4);
      b10 ← slice proofBytes (fpSize * 4) (fpSize * 5);
      b11 ← slice proofBytes (fpSize * 5) (fpSize * 6);
      c0 ← slice proofBytes (fpSize * 6) (fpSize * 7);
      c1 ← slice proofBytes (fpSize * 7) (fpSize * 8);
      inputHash ← as_big_Int (cf_InputHash f);
      inputHashBytes ← FillBytes inputHash 32;
      outputHash ← as_big_Int (cf_OutputHash f);
      outputHashBytes ← FillBytes outputHash 32;
      mret (Success {|
              A := (SetBytes a0, SetBytes a1);
              B := ((SetBytes b00, SetBytes b01), (SetBytes b10, SetBytes b11));
              C := (SetBytes c0, SetBytes c1);
              InputHash := inputHashBytes;
              OutputHash := outputHashBytes |},
            f, out)
  end end.

End Pipeline.

Arguments Compile {ConstraintSystem} compile_constraints define_error define.
Arguments Build sha256 {Ckt H ConstraintSystem ProvingKey VerifyingKey}
  compile_constraints define_error groth16_Setup f.
Arguments pk {ConstraintSystem ProvingKey VerifyingKey} c.
Arguments vk {ConstraintSystem ProvingKey VerifyingKey} c.
Arguments r1cs {ConstraintSystem ProvingKey VerifyingKey} c.
Arguments os_MkdirAll {ConstraintSystem ProvingKey} o path.
Arguments os_Create {ConstraintSystem ProvingKey} o path.
Arguments os_Open {ConstraintSystem ProvingKey} o path.
Arguments WriteTo {ConstraintSystem ProvingKey} o path.
Arguments ExportIFunctionVerifierSolidity {ConstraintSystem ProvingKey} o.
Arguments pk_ReadFrom {ConstraintSystem ProvingKey} o.
Arguments r1cs_ReadFrom {ConstraintSystem ProvingKey} o.
Arguments Export {ConstraintSystem ProvingKey VerifyingKey} env build.
Arguments export_steps {ConstraintSystem ProvingKey} env.
Arguments ImportCircuitBuild {ConstraintSystem ProvingKey VerifyingKey} env.
Arguments Prove sha256 {Ckt H ConstraintSystem ProvingKey VerifyingKey Witness Proof
  Entropy} frontend_NewWitness groth16_Prove WriteRawTo entropy inputBytes build f.

End Succinct.

(** ** Concrete circuits and a concrete back end

    Small instances on which the pipeline can be run. *)

Definition sample_sha256 (l : list Z) : list Z := bytes (sample_hash l).

Record TestCircuit := { InputBytes : list Z; OutputBytes : list Z }.

(** A circuit whose output is its input reversed; [define_error] is what
    its [Define] returns. *)
Definition test_circuit (define_error : option Succinct.error) : Succinct.Circuit TestCircuit :=
  {| Succinct.circuit_SetWitness input c :=
       {| InputBytes := InputBytes c; OutputBytes := rev input |};
     Succinct.circuit_Define api c := (api, define_error);
     Succinct.GetInputBytes :=
       Succinct.Pointer InputBytes
         (fun v c => {| InputBytes := v; OutputBytes := OutputBytes c |});
     Succinct.GetOutputBytes :=
       Succinct.Pointer OutputBytes
         (fun v c => {| InputBytes := InputBytes c; OutputBytes := v |}) |}.

Definition empty_circuit : TestCircuit := {| InputBytes := []; OutputBytes := [] |}.

Definition ill_formed : Succinct.error := Succinct.ErrorString "ill-formed circuit".

(** A back end that accepts every constraint list. *)
Definition sample_compile (api : Succinct.frontend) : Succinct.result Succinct.frontend :=
  Succinct.Success api.

Definition sample_define_error (err : Succinct.error) : Succinct.error :=
  Succinct.Wrapped "parse circuit" (Succinct.Wrapped "define circuit" err).

Definition sample_Setup (cs : Succinct.frontend) : Succinct.result (nat * nat) :=
  Succinct.Success (length cs, length cs).

Definition sample_NewWitness (f : @Succinct.CircuitFunction TestCircuit)
  : Succinct.result (list Z) :=
  Succinct.Success (InputBytes (Succinct.circuit f)).

(** A prover whose raw proof is 256 bytes, byte [i] being [i] plus the
    entropy drawn, modulo 256. *)
Definition sample_Prove (cs : Succinct.frontend) (pk : nat) (w : list Z) (entropy : Z)
  : Succinct.result (list Z) :=
  Succinct.Success (map (fun i => (Z.of_nat i + entropy) mod 256) (seq 0 256)).

(** A buffer that holds exactly what was written, and one with [spare]
    further cells in its backing array. *)
Definition exact_buffer (raw : list Z) : go_slice Z := GoSlice raw (length raw).

Definition roomy_buffer (spare : list Z) (raw : list Z) : go_slice Z :=
  GoSlice (raw ++ spare) (length raw).

Definition sample_build : @Succinct.CircuitBuild Succinct.frontend nat nat :=
  {| Succinct.pk := 2%nat; Succinct.vk := Some 2%nat; Succinct.r1cs := [] |}.

Definition unexpected_EOF : Succinct.error := Succinct.ErrorString "unexpected EOF".

(** An environment in which every file operation succeeds, with the two
    decoders answering as given. *)
Definition sample_os (pk : Succinct.result nat) (cs : Succinct.result Succinct.frontend)
  : @Succinct.os Succinct.frontend nat :=
  {| Succinct.os_MkdirAll := fun _ => None;
     Succinct.os_Create := fun _ => None;
     Succinct.os_Open := fun _ => None;
     Succinct.WriteTo := fun _ => None;
     Succinct.ExportIFunctionVerifierSolidity := None;
     Succinct.pk_ReadFrom := pk;
     Succinct.r1cs_ReadFrom := cs |}.

(** The same environment with a disk that refuses to create
    [build/r1cs.bin]. *)
Definition read_only_os : @Succinct.os Succinct.frontend nat :=
  {| Succinct.os_MkdirAll := fun _ => None;
     Succinct.os_Create := fun path =>
       Some (Succinct.PathError "open" path (Succinct.ErrorString "permission denied"));
     Succinct.os_Open := fun _ => None;
     Succinct.WriteTo := fun _ => None;
     Succinct.ExportIFunctionVerifierSolidity := None;
     Succinct.pk_ReadFrom := Succinct.Success 2%nat;
     Succinct.r1cs_ReadFrom := Succinct.Success [] |}.

(** ** Honest Merkle paths

    The sibling of node [i] of a level, and the path a prover hands over
    for leaf [i] of a tree with [2^k] leaves: one sibling per level. *)
Definition sibling (i : nat) : nat := if Nat.even i then S i else pred i.

Definition merkle_path (Hash : list Z -> Bytes32) (leaves : list Bytes32) (k i : nat)
  : list Bytes32 :=
  map (fun j => Ssz.tree_level Hash j leaves !!! sibling (i / 2 ^ j)) (seq 0 k).

(** ** File handles in a trace *)

(** The files a trace creates or opens, and the files it closes, in the
    order of the events. *)
Definition acquired (tr : list Succinct.event) : list string :=
  omap (fun e => match e with
                 | Succinct.Create path | Succinct.Open path => Some path
                 | _ => None
                 end) tr.

Definition released (tr : list Succinct.event) : list string :=
  omap (fun e => match e with Succinct.Close path => Some path | _ => None end) tr.

(** ** The command line of the verifier wrapper *)

Module Cli.

(** The flags after [flag.Parse()]. *)
Record flags := {
  circuitPath : string;
  dataPath : string;
  proofFlag : bool;
  verifyFlag : bool;
  compileFlag : bool;
  contractFlag : bool
}.

(** What the logger is handed: [log.Error().Msg], [log.Debug().Msg],
    [log.Info().Msg] and [log.Err(err).Msg] with a non-nil error. *)
Inductive log_entry : Type :=
  | LogError (msg : string)
  | LogDebug (msg : string)
  | LogInfo (msg : string)
  | LogErr (err : Succinct.error) (msg : string).

Definition is_error (e : log_entry) : bool :=
  match e with
  | LogError _ | LogErr _ _ => true
  | LogDebug _ | LogInfo _ => false
  end.

Section Main.

(** The state of the outside world (files) and the objects of the proving
    back end. *)
Variables World R1CS PK VK Proof PublicWitness : Type.

(** The functions of package [main] that are not part of these sources,
    and [plonk.Verify]: each may read and change the world. *)
Record collaborators := {
  CompileVerifierCircuit : string -> World -> World * Succinct.result (R1CS * PK * VK);
  SaveVerifierCircuit : string -> R1CS -> PK -> VK -> World -> World * option Succinct.error;
  ExportIFunctionVerifierSolidity : string -> VK -> World -> World * option Succinct.error;
  LoadProverData : string -> World -> World * Succinct.result (R1CS * PK);
  Prove : string -> R1CS -> PK -> World -> World * Succinct.result (Proof * PublicWitness);
  LoadVerifierKey : string -> World -> World * Succinct.result VK;
  plonk_Verify : Proof -> VK -> PublicWitness -> option Succinct.error;
  LoadPublicWitness : string -> World -> World * Succinct.result PublicWitness;
  LoadProof : World -> World * Succinct.result Proof
}.

Variable c : collaborators.

(** How a run ends: the world it leaves, what it logged, and the exit
    status ([os.Exit(1)] or a normal return). *)
Record run := { world : World; log : list log_entry; exit_code : Z }.

(** A phase either exits or hands on the world and the log. *)
Definition phase := World -> list log_entry -> run + World * list log_entry.

Definition exit1 (w : World) (l : list log_entry) : run + World * list log_entry :=
  inl {| world := w; log := l; exit_code := 1 |}.

Definition compile_phase (fl : flags) : phase := fun w l =>
  if compileFlag fl then
    let l := l ++ [LogInfo "compiling verifier circuit"] in
    match CompileVerifierCircuit c "./data/dummy" w with
    | (w, Succinct.Failure err) =>
        exit1 w (l ++ [LogError ("failed to compile verifier circuit:"
                                 +:+ Succinct.error_text err)])
    | (w, Succinct.Success (r1cs, pk, vk)) =>
        match SaveVerifierCircuit c (dataPath fl) r1cs pk vk w with
        | (w, Some err) =>
            exit1 w (l ++ [LogError ("failed to save verifier circuit:"
                                     +:+ Succinct.error_text err)])
        | (w, None) =>
            if contractFlag fl then
              let l := l ++ [LogInfo "generating solidity contract"] in
              match ExportIFunctionVerifierSolidity c (dataPath fl) vk w with
              | (w, Some err) =>
                  exit1 w (l ++ [LogError ("failed to generate solidity contract:"
                                           +:+ Succinct.error_text err)])
              | (w, None) => inr (w, l)
              end
            else inr (w, l)
        end
    end
  else inr (w, l).

Definition prove_phase (fl : flags) : phase := fun w l =>
  if proofFlag fl then
    let l := l ++ [LogInfo "loading the plonk proving key and circuit data"] in
    match LoadProverData c (dataPath fl) w with
    | (w, Succinct.Failure err) =>
        exit1 w (l ++ [LogErr err "failed to load the verifier circuit"])
    | (w, Succinct.Success (r1cs, pk)) =>
        let l := l ++ [LogInfo "creating the plonk verifier proof"] in
        match Prove c (circuitPath fl) r1cs pk w with
        | (w, Succinct.Failure err) =>
            exit1 w (l ++ [LogErr err "failed to create the proof"])
        | (w, Succinct.Success (proof, publicWitness)) =>
            let l := l ++ [LogInfo "loading the proof, verifying key and verifying proof"] in
            match LoadVerifierKey c (dataPath fl) w with
            | (w, Succinct.Failure err) =>
                exit1 w (l ++ [LogErr err "failed to load the verifier key"])
            | (w, Succinct.Success vk) =>
                match plonk_Verify c proof vk publicWitness with
                | Some err => exit1 w (l ++ [LogErr err "failed to verify proof"])
                | None => inr (w, l ++ [LogInfo "Successfully verified proof"])
                end
            end
        end
    end
  else inr (w, l).

Definition verify_phase (fl : flags) : phase := fun w l =>
  if verifyFlag fl then
    let l := l ++ [LogInfo "loading the proof, verifying key and public inputs"] in
    match LoadVerifierKey c (dataPath fl) w with
    | (w, Succinct.Failure err) =>
        exit1 w (l ++ [LogErr err "failed to load the verifier key"])
    | (w, Succinct.Success vk) =>
        match LoadPublicWitness c (circuitPath fl) w with
        | (w, Succinct.Failure err) =>
            exit1 w (l ++ [LogErr err "failed to load the public witness"])
        | (w, Succinct.Success publicWitness) =>
            match LoadProof c w with
            | (w, Succinct.Failure err) =>
                exit1 w (l ++ [LogErr err "failed to load the proof"])
            | (w, Succinct.Success proof) =>
                match plonk_Verify c proof vk publicWitness with
                | Some err => exit1 w (l ++ [LogErr err "failed to verify proof"])
                | None => inr (w, l ++ [LogInfo "Successfully verified proof"])
                end
            end
        end
    end
  else inr (w, l).

(** [main()] once the flags are parsed. *)
Definition main (fl : flags) (w : World) : run :=
  if String.eqb (circuitPath fl) "" then
    {| world := w;
       log := [LogError "please specify a path to circuit dir (containing verifier_only_circuit_data and proof_with_public_inputs)"];
       exit_code := 1 |}
  else if String.eqb (dataPath fl) "" then
    {| world := w;
       log := [LogError "please specify a path to data dir (where the compiled gnark circuit data will be)"];
       exit_code := 1 |}
  else
    let l := [LogDebug ("Circuit path: " +:+ circuitPath fl);
              LogDebug ("Data path: " +:+ dataPath fl)] in
    match compile_phase fl w l with
    | inl r => r
    | inr (w, l) =>
        match prove_phase fl w l with
        | inl r => r
        | inr (w, l) =>
            match verify_phase fl w l with
            | inl r => r
            | inr (w, l) => {| world := w; log := l; exit_code := 0 |}
            end
        end
    end.

End Main.

Arguments main {World R1CS PK VK Proof PublicWitness} c fl w.
Arguments compile_phase {World R1CS PK VK Proof PublicWitness} c fl.
Arguments prove_phase {World R1CS PK VK Proof PublicWitness} c fl.
Arguments verify_phase {World R1CS PK VK Proof PublicWitness} c fl.
Arguments world {World} r.
Arguments log {World} r.
Arguments exit_code {World} r.

End Cli.

(** A back end for the command line whose every step succeeds and leaves
    the world (a counter of calls) one step further. *)
Definition sample_collaborators : Cli.collaborators nat unit unit unit unit unit :=
  {| Cli.CompileVerifierCircuit := fun _ w => (S w, Succinct.Success (tt, tt, tt));
     Cli.SaveVerifierCircuit := fun _ _ _ _ w => (S w, None);
     Cli.ExportIFunctionVerifierSolidity := fun _ _ w => (S w, None);
     Cli.LoadProverData := fun _ w => (S w, Succinct.Success (tt, tt));
     Cli.Prove := fun _ _ _ w => (S w, Succinct.Success (tt, tt));
     Cli.LoadVerifierKey := fun _ w => (S w, Succinct.Success tt);
     Cli.plonk_Verify := fun _ _ _ => None;
     Cli.LoadPublicWitness := fun _ w => (S w, Succinct.Success tt);
     Cli.LoadProof := fun w => (S w, Succinct.Success tt) |}.

Definition sample_flags (circuit data : string) : Cli.flags :=
  {| Cli.circuitPath := circuit; Cli.dataPath := data;
     Cli.proofFlag := true; Cli.verifyFlag := true;
     Cli.compileFlag := true; Cli.contractFlag := true |}.

(** ** Outcomes *)

Lemma bind_Ok {A B : Type} (a : A) (k : A -> outcome B) : Ok a ≫= k = k a.
Proof. reflexivity. Qed.

Lemma bind_Panic {A B : Type} (msg : string) (k : A -> outcome B) :
  Panic msg ≫= k = Panic msg.
Proof. reflexivity. Qed.

(** ** Loops *)

Lemma for_range_snoc {St : Type} (body : nat -> St -> St) (n lo : nat) (s : St) :
  for_range lo (S n) body s = body (lo + n)%nat (for_range lo n body s).
Proof.
  revert lo s. induction n as [|n IH]; intros lo s.
  - simpl. by rewrite Nat.add_0_r.
  - change (for_range lo (S (S n)) body s)
      with (for_range (S lo) (S n) body (body lo s)).
    rewrite IH. simpl. by rewrite Nat.add_succ_r.
Qed.

Lemma for_range_ext {St : Type} (f g : nat -> St -> St) (n lo : nat) (s : St) :
  (forall i t, (lo <= i < lo + n)%nat -> f i t = g i t) ->
  for_range lo n f s = for_range lo n g s.
Proof.
  revert lo s. induction n as [|n IH]; intros lo s Hfg; simpl; [done|].
  rewrite Hfg by lia. apply IH. intros i t Hi. apply Hfg. lia.
Qed.

(** ** Go arithmetic on non-negative operands *)

Lemma go_mod_odd (g : Z) : 0 <= g -> (go_mod g 2 =? 1) = Z.odd g.
Proof.
  intros Hg. unfold go_mod. rewrite Z.rem_mod_nonneg by lia. by rewrite Zodd_mod.
Qed.

Lemma go_div_half (g : Z) : 0 <= g -> go_div g 2 = g / 2.
Proof. intros Hg. unfold go_div. apply Z.quot_div_nonneg; lia. Qed.

Lemma halvings_succ (g : Z) (n : nat) :
  g / 2 ^ Z.of_nat n / 2 = g / 2 ^ Z.of_nat (S n).
Proof.
  rewrite Nat2Z.inj_succ, Z.pow_succ_r by lia.
  rewrite Z.div_div by lia. f_equal. lia.
Qed.

(** ** RestoreMerkleRoot *)

Section RestoreFacts.

Variable Hash : list Z -> Bytes32.

Lemma restore_state_succ leaf proof g n :
  Ssz.restore_state Hash leaf proof g (S n) =
  Ssz.restore_step Hash proof n (Ssz.restore_state Hash leaf proof g n).
Proof. unfold Ssz.restore_state. by rewrite for_range_snoc. Qed.

(** For a non-negative gindex the loop state after [n] levels is the
    specification's accumulator together with the gindex halved [n] times. *)
Lemma restore_state_spec leaf proof g n :
  0 <= g ->
  Ssz.restore_state Hash leaf proof g n =
  (Ssz.spec_level Hash leaf proof g n, g / 2 ^ Z.of_nat n).
Proof.
  intros Hg. induction n as [|n IH].
  - unfold Ssz.restore_state. simpl. by rewrite Z.div_1_r.
  - rewrite restore_state_succ, IH. unfold Ssz.restore_step.
    assert (0 <= g / 2 ^ Z.of_nat n) by (apply Z.div_pos; lia).
    rewrite go_mod_odd, go_div_half by done.
    rewrite halvings_succ. done.
Qed.

End RestoreFacts.

(** C1 (as amended): for every leaf, every proof of length L and every
    non-negative constant gindex, [RestoreMerkleRoot] runs exactly L
    levels; after [n <= L] of them the accumulator is the one the rule
    prescribes (sibling first when the current gindex is odd, accumulator
    first when it is even) and the gindex has been halved [n] times.  For
    the all-zero leaf, proof [[s0; s1]] and gindex 5 the result is
    [Hash (Hash (s0 ++ leaf) ++ s1)]. *)
Theorem RestoreMerkleRoot_levels (Hash : list Z -> Bytes32)
    (leaf : Bytes32) (proof : list Bytes32) (gindex : Z) :
  0 <= gindex ->
  (forall n, (n <= length proof)%nat ->
     Ssz.restore_state Hash leaf proof gindex n =
     (Ssz.spec_level Hash leaf proof gindex n, gindex / 2 ^ Z.of_nat n)) /\
  Ssz.RestoreMerkleRoot Hash leaf proof gindex =
    Ssz.spec_level Hash leaf proof gindex (length proof) /\
  (forall s0 s1 : Bytes32,
     Ssz.RestoreMerkleRoot Hash zero_digest [s0; s1] 5 =
     Hash (bytes (Hash (bytes s0 ++ bytes zero_digest)) ++ bytes s1)).
Proof.
  intros Hg. split; [|split].
  - intros n _. by apply restore_state_spec.
  - unfold Ssz.RestoreMerkleRoot. by rewrite restore_state_spec.
  - intros s0 s1. reflexivity.
Qed.

Lemma RestoreMerkleRoot_levels_witness :
  0 <= 5 /\
  Ssz.RestoreMerkleRoot sample_hash zero_digest [sample_s0; sample_s1] 5 =
  Ssz.spec_level sample_hash zero_digest [sample_s0; sample_s1] 5 2.
Proof.
  split; [lia|].
  apply (RestoreMerkleRoot_levels sample_hash zero_digest [sample_s0; sample_s1] 5).
  lia.
Defined.

(** C1 as stated fails on a negative odd gindex: Go's [%] truncates
    towards zero, so [-1 % 2] is [-1], the test [gindex%2 == 1] is false
    and the accumulator is hashed first, where the parity rule asks for
    the sibling first. *)
Lemma RestoreMerkleRoot_negative_odd_gindex :
  in_int (-1) /\ Z.odd (-1) = true /\
  Ssz.RestoreMerkleRoot sample_hash zero_digest [sample_s0] (-1) =
    sample_hash (bytes zero_digest ++ bytes sample_s0) /\
  Ssz.spec_level sample_hash zero_digest [sample_s0] (-1) 1 =
    sample_hash (bytes sample_s0 ++ bytes zero_digest) /\
  Ssz.RestoreMerkleRoot sample_hash zero_digest [sample_s0] (-1) <>
    Ssz.spec_level sample_hash zero_digest [sample_s0] (-1) 1.
Proof.
  split; [unfold in_int, int_min, int_max; lia|].
  split; [reflexivity|]. split; [reflexivity|]. split; [reflexivity|].
  vm_compute. discriminate.
Qed.

(** ** RestoreMerkleRootWithGIndexVariable *)

Lemma ToBinaryLE_lookup (v : Z) (n i : nat) :
  (i < n)%nat -> Ssz.ToBinaryLE v n !!! i = Z.testbit v (Z.of_nat i).
Proof.
  intros Hi. apply list_lookup_total_correct. unfold Ssz.ToBinaryLE.
  rewrite list_lookup_fmap, lookup_seq_lt by done. done.
Qed.

Lemma testbit_halvings (g : Z) (i : nat) :
  Z.testbit g (Z.of_nat i) = Z.odd (g / 2 ^ Z.of_nat i).
Proof. rewrite Z.testbit_odd, Z.shiftr_div_pow2 by lia. done. Qed.

Section VariableFacts.

Variable Hash : list Z -> Bytes32.

(** The variable-gindex loop follows the specification's rule on the
    extracted bits, for as many levels as bits were extracted. *)
Lemma restore_var_spec leaf proof g (nbits n : nat) :
  (n <= nbits)%nat ->
  for_range 0 n (Ssz.restore_var_step Hash proof (Ssz.ToBinaryLE g nbits)) leaf =
  Ssz.spec_level Hash leaf proof g n.
Proof.
  intros Hn. induction n as [|n IH]; [done|].
  rewrite for_range_snoc, IH by lia. simpl.
  unfold Ssz.restore_var_step, Ssz.SelectBytes32.
  rewrite ToBinaryLE_lookup by lia. by rewrite testbit_halvings.
Qed.

(** Only the bits below [n] decide the first [n] levels. *)
Lemma restore_var_low_bits leaf proof g1 g2 (nbits n : nat) :
  (n <= nbits)%nat ->
  (forall i, (i < n)%nat -> Z.testbit g1 (Z.of_nat i) = Z.testbit g2 (Z.of_nat i)) ->
  for_range 0 n (Ssz.restore_var_step Hash proof (Ssz.ToBinaryLE g1 nbits)) leaf =
  for_range 0 n (Ssz.restore_var_step Hash proof (Ssz.ToBinaryLE g2 nbits)) leaf.
Proof.
  intros Hn Hbits. apply for_range_ext. intros i t Hi.
  unfold Ssz.restore_var_step. rewrite !ToBinaryLE_lookup by lia.
  rewrite Hbits by lia. done.
Qed.

End VariableFacts.

Lemma low_bits_of_mod (g1 g2 : Z) (n i : nat) :
  g1 mod 2 ^ Z.of_nat n = g2 mod 2 ^ Z.of_nat n ->
  (i < n)%nat ->
  Z.testbit g1 (Z.of_nat i) = Z.testbit g2 (Z.of_nat i).
Proof.
  intros Hmod Hi.
  rewrite <- (Z.mod_pow2_bits_low g1 (Z.of_nat n)) by lia.
  rewrite <- (Z.mod_pow2_bits_low g2 (Z.of_nat n) (Z.of_nat i)) by lia.
  by rewrite Hmod.
Qed.

(** C2: for every leaf and proof and every gindex that fits the
    [len(proof)+1]-bit decomposition, the variable-gindex reconstruction
    returns the digest the constant-gindex one returns on the same value. *)
Theorem RestoreMerkleRoot_variable_agrees (Hash : list Z -> Bytes32)
    (leaf : Bytes32) (proof : list Bytes32) (gindex : Z) :
  0 <= gindex < 2 ^ Z.of_nat (length proof + 1) ->
  Ssz.RestoreMerkleRootWithGIndexVariable Hash leaf proof gindex =
  Ssz.RestoreMerkleRoot Hash leaf proof gindex.
Proof.
  intros [Hlo _]. unfold Ssz.RestoreMerkleRootWithGIndexVariable, Ssz.RestoreMerkleRoot.
  rewrite restore_var_spec by lia. by rewrite restore_state_spec.
Qed.

Lemma RestoreMerkleRoot_variable_agrees_witness :
  0 <= 6 < 2 ^ Z.of_nat (length [sample_s0; sample_s1] + 1) /\
  Ssz.RestoreMerkleRootWithGIndexVariable sample_hash zero_digest [sample_s0; sample_s1] 6 =
  Ssz.RestoreMerkleRoot sample_hash zero_digest [sample_s0; sample_s1] 6.
Proof.
  assert (H : 0 <= 6 < 2 ^ Z.of_nat (length [sample_s0; sample_s1] + 1))
    by (simpl; lia).
  split; [exact H|].
  exact (RestoreMerkleRoot_variable_agrees sample_hash zero_digest
           [sample_s0; sample_s1] 6 H).
Defined.

(** C9: two in-range gindex values that agree on their low [len(proof)]
    bits give the same digest; the extra decomposed bit is never read by
    the traversal. *)
Theorem RestoreMerkleRoot_variable_ignores_top_bit (Hash : list Z -> Bytes32)
    (leaf : Bytes32) (proof : list Bytes32) (g1 g2 : Z) :
  0 <= g1 < 2 ^ Z.of_nat (length proof + 1) ->
  0 <= g2 < 2 ^ Z.of_nat (length proof + 1) ->
  g1 mod 2 ^ Z.of_nat (length proof) = g2 mod 2 ^ Z.of_nat (length proof) ->
  Ssz.RestoreMerkleRootWithGIndexVariable Hash leaf proof g1 =
  Ssz.RestoreMerkleRootWithGIndexVariable Hash leaf proof g2.
Proof.
  intros _ _ Hmod. unfold Ssz.RestoreMerkleRootWithGIndexVariable.
  apply restore_var_low_bits; [lia|].
  intros i Hi. by apply (low_bits_of_mod g1 g2 (length proof)).
Qed.

Lemma RestoreMerkleRoot_variable_ignores_top_bit_witness :
  Ssz.RestoreMerkleRootWithGIndexVariable sample_hash zero_digest [sample_s0; sample_s1] 1 =
  Ssz.RestoreMerkleRootWithGIndexVariable sample_hash zero_digest [sample_s0; sample_s1] 5.
Proof.
  apply (RestoreMerkleRoot_variable_ignores_top_bit sample_hash zero_digest
           [sample_s0; sample_s1] 1 5); simpl; try lia.
  reflexivity.
Defined.

(** ** VerifyProof *)

Lemma for_range_assert (f g : nat -> Z) (n lo : nat) (api : Ssz.frontend) :
  for_range lo n (fun i api => Ssz.AssertIsEqual (f i) (g i) api) api =
  api ++ map (fun i => Ssz.AssertEq (f i) (g i)) (seq lo n).
Proof.
  revert lo api. induction n as [|n IH]; intros lo api; simpl.
  - by rewrite app_nil_r.
  - rewrite IH. unfold Ssz.AssertIsEqual. by rewrite <- app_assoc.
Qed.

Lemma forallb_false_iff {A : Type} (p : A -> bool) (l : list A) :
  forallb p l = false <-> exists x, In x l /\ p x = false.
Proof.
  induction l as [|a l IH]; simpl.
  - split; [discriminate|]. by intros (x & [] & _).
  - rewrite andb_false_iff, IH. split.
    + intros [Ha|(x & Hx & Hp)]; [exists a|exists x]; auto.
    + intros (x & [->|Hx] & Hp); [by left|right; by exists x].
Qed.

(** C3: [VerifyProof] adds one equality per byte position, 32 in all,
    between [root] and the restored root, in order; those constraints
    fail to hold exactly when some byte position carries different
    values. *)
Theorem VerifyProof_asserts_each_byte (Hash : list Z -> Bytes32)
    (root leaf : Bytes32) (proof : list Bytes32) (gindex : Z) (api : Ssz.frontend) :
  let restored := Ssz.RestoreMerkleRoot Hash leaf proof gindex in
  Ssz.VerifyProof Hash root leaf proof gindex api =
    api ++ map (fun i => Ssz.AssertEq (bytes root !!! i) (bytes restored !!! i)) (seq 0 32) /\
  (Ssz.satisfied (Ssz.VerifyProof Hash root leaf proof gindex []) = false <->
   exists i, (i < 32)%nat /\ bytes root !!! i <> bytes restored !!! i).
Proof.
  intros restored. unfold Ssz.VerifyProof. fold restored.
  split; [apply for_range_assert|].
  rewrite for_range_assert, app_nil_l. unfold Ssz.satisfied.
  rewrite forallb_false_iff. split.
  - intros (c & Hc & Hp). apply in_map_iff in Hc as (i & <- & Hi).
    apply in_seq in Hi. exists i. split; [lia|].
    unfold Ssz.holds in Hp. simpl in Hp. by apply Z.eqb_neq.
  - intros (i & Hi & Hne).
    exists (Ssz.AssertEq (bytes root !!! i) (bytes restored !!! i)). split.
    + apply in_map_iff. exists i. split; [done|]. apply in_seq. lia.
    + unfold Ssz.holds. simpl. by apply Z.eqb_neq.
Qed.

(** ** HashTreeRoot *)

Section HashTreeFacts.

Variable Hash : list Z -> Bytes32.

Local Abbreviation pair_hashes := (Ssz.pair_hashes Hash).
Local Abbreviation reduce_step := (Ssz.reduce_step Hash).
Local Abbreviation reduce_pass := (Ssz.reduce_pass Hash).
Local Abbreviation reduce_loop := (Ssz.reduce_loop Hash).
Local Abbreviation tree_level := (Ssz.tree_level Hash).

(** The recursion on binary digits is the source's [while] loop. *)
Lemma reduce_loop_unfold (leaves : list Bytes32) (nbLeaves : Z) :
  reduce_loop leaves nbLeaves =
  if 1 <? nbLeaves
  then leaves' ← reduce_pass leaves nbLeaves; reduce_loop leaves' (go_div nbLeaves 2)
  else Ok leaves.
Proof.
  destruct nbLeaves as [|p|p]; try done.
  destruct p as [p|p|]; try done; simpl.
  - replace (go_div (Z.pos p~1) 2) with (Z.pos p); [done|].
    unfold go_div. rewrite Z.quot_div_nonneg by lia.
    apply (Z.div_unique _ _ _ 1); lia.
  - replace (go_div (Z.pos p~0) 2) with (Z.pos p); [done|].
    unfold go_div. rewrite Z.quot_div_nonneg by lia.
    apply (Z.div_unique _ _ _ 0); lia.
Qed.

Lemma pair_hashes_length (l : list Bytes32) :
  length (pair_hashes l) = (length l / 2)%nat.
Proof.
  induction l as [l IH] using (induction_ltof1 _ (@length _)); unfold ltof in IH.
  destruct l as [|a [|b rest]]; try done.
  simpl pair_hashes. simpl length. rewrite IH by (simpl; lia).
  change (S (S (length rest))) with (1 * 2 + length rest)%nat.
  rewrite (Nat.add_comm (1 * 2)), Nat.div_add by lia. lia.
Qed.

Lemma pair_hashes_lookup (l : list Bytes32) (i : nat) (a b : Bytes32) :
  l !! (i * 2)%nat = Some a -> l !! (i * 2 + 1)%nat = Some b ->
  pair_hashes l !! i = Some (Hash (bytes a ++ bytes b)).
Proof.
  revert l. induction i as [|i IH]; intros l Ha Hb.
  - destruct l as [|a' [|b' rest]]; simplify_eq/=. done.
  - destruct l as [|a' [|b' rest]]; simplify_eq/=. by apply IH.
Qed.

Lemma pair_hashes_lookup_inv (l : list Bytes32) (i : nat) (h : Bytes32) :
  pair_hashes l !! i = Some h ->
  exists a b, l !! (i * 2)%nat = Some a /\ l !! (i * 2 + 1)%nat = Some b /\
              h = Hash (bytes a ++ bytes b).
Proof.
  revert l. induction i as [|i IH]; intros l Hh.
  - destruct l as [|a' [|b' rest]]; simplify_eq/=. by exists a', b'.
  - destruct l as [|a' [|b' rest]]; simplify_eq/=. by apply IH.
Qed.

(** The inner loop never reads an entry it has already overwritten: after
    [i] steps the slice holds [i] pair hashes followed by the untouched
    rest. *)
Lemma reduce_steps_closed (s : list Bytes32) (n i : nat) :
  (2 * n <= length s)%nat -> (i <= n)%nat ->
  for_range 0 i reduce_step (Ok s) =
  Ok (take i (pair_hashes (take (2 * n) s)) ++ drop i s).
Proof.
  intros Hlen Hi. set (P := pair_hashes (take (2 * n) s)).
  assert (HP : length P = n).
  { unfold P. rewrite pair_hashes_length, length_take_le by lia.
    rewrite Nat.mul_comm. apply Nat.div_mul. lia. }
  induction i as [|i IH]; [done|].
  rewrite for_range_snoc, IH, Nat.add_0_l by lia.
  assert (HT : length (take i P) = i) by (apply length_take_le; lia).
  destruct (lookup_lt_is_Some_2 s (i * 2)) as [a Ha]; [lia|].
  destruct (lookup_lt_is_Some_2 s (i * 2 + 1)) as [b Hb]; [lia|].
  destruct (lookup_lt_is_Some_2 s i) as [x Hx]; [lia|].
  assert (Ht1 : (take i P ++ drop i s) !! (i * 2)%nat = Some a).
  { rewrite lookup_app_r, HT, lookup_drop, <- Ha by lia. f_equal. lia. }
  assert (Ht2 : (take i P ++ drop i s) !! (i * 2 + 1)%nat = Some b).
  { rewrite lookup_app_r, HT, lookup_drop, <- Hb by lia. f_equal. lia. }
  unfold Ssz.reduce_step, index, assign.
  rewrite bind_Ok, Ht1, bind_Ok, Ht2, bind_Ok.
  rewrite decide_True by (rewrite length_app, HT, length_drop; lia).
  f_equal. rewrite insert_app_r_alt, HT, Nat.sub_diag by lia.
  rewrite (drop_S s x i Hx). cbn [insert list_insert].
  assert (HPi : P !! i = Some (Hash (bytes a ++ bytes b))).
  { apply pair_hashes_lookup; rewrite lookup_take_lt by lia; done. }
  rewrite (take_S_r P i _ HPi), <- app_assoc. done.
Qed.

Lemma reduce_pass_closed (s : list Bytes32) (n : nat) :
  (2 * n <= length s)%nat ->
  reduce_pass s (Z.of_nat (2 * n)) =
  Ok (pair_hashes (take (2 * n) s) ++ drop n s).
Proof.
  intros Hlen. unfold Ssz.reduce_pass.
  replace (Z.to_nat (go_div (Z.of_nat (2 * n)) 2)) with n.
  - rewrite (reduce_steps_closed s n n) by lia. f_equal. f_equal.
    apply take_ge. rewrite pair_hashes_length, length_take_le by lia.
    rewrite Nat.mul_comm, Nat.div_mul; lia.
  - unfold go_div. rewrite Z.quot_div_nonneg by lia.
    rewrite Nat2Z.inj_mul, Z.mul_comm, Z.div_mul by lia. lia.
Qed.

Lemma tree_level_succ (j : nat) (l : list Bytes32) :
  tree_level (S j) l = tree_level j (pair_hashes l).
Proof. unfold Ssz.tree_level. apply Nat.iter_succ_r. Qed.

Lemma pow2_half (k : nat) : (2 ^ S k / 2 = 2 ^ k)%nat.
Proof. rewrite Nat.pow_succ_r', Nat.mul_comm. apply Nat.div_mul. lia. Qed.

Lemma pow2_pos (k : nat) : (0 < 2 ^ k)%nat.
Proof. induction k; simpl; lia. Qed.

(** The whole reduction of the first [2^k] entries: where the slice ends
    up, level by level. *)
Lemma reduce_loop_pow2 (k : nat) (s : list Bytes32) :
  (2 ^ k <= length s)%nat ->
  exists s',
    reduce_loop s (Z.of_nat (2 ^ k)) = Ok s' /\
    length s' = length s /\
    s' !! 0%nat = tree_level k (take (2 ^ k) s) !! 0%nat /\
    (forall i, (i < 2 ^ k / 2)%nat ->
       exists j, (1 <= j <= k)%nat /\ s' !! i = tree_level j (take (2 ^ k) s) !! i) /\
    (forall i, (2 ^ k / 2 <= i)%nat -> s' !! i = s !! i).
Proof.
  revert s. induction k as [|k IH]; intros s Hlen.
  - exists s. repeat split; try done.
    + simpl. by destruct s.
    + intros i Hi. simpl in Hi. lia.
  - pose proof (pow2_pos k) as Hpos.
    assert (H2 : (2 ^ S k = 2 * 2 ^ k)%nat) by apply Nat.pow_succ_r'.
    set (P := pair_hashes (take (2 ^ S k) s)).
    assert (HP : length P = (2 ^ k)%nat).
    { unfold P. rewrite pair_hashes_length, length_take_le by lia. apply pow2_half. }
    set (s1 := P ++ drop (2 ^ k) s).
    assert (Hs1 : length s1 = length s).
    { unfold s1. rewrite length_app, HP, length_drop. lia. }
    assert (Htake : take (2 ^ k) s1 = P).
    { unfold s1. rewrite <- HP. apply take_app_length. }
    destruct (IH s1) as (s' & Hrun & Hlen' & Hroot & Hlev & Hrest); [lia|].
    exists s'. rewrite pow2_half. split; [|split; [|split; [|split]]].
    + rewrite reduce_loop_unfold.
      replace (1 <? Z.of_nat (2 ^ S k)) with true by (symmetry; apply Z.ltb_lt; lia).
      rewrite H2, reduce_pass_closed, bind_Ok by lia. rewrite <- H2. fold P. fold s1.
      replace (go_div (Z.of_nat (2 ^ S k)) 2) with (Z.of_nat (2 ^ k)); [done|].
      unfold go_div. rewrite Z.quot_div_nonneg by lia.
      rewrite H2, Nat2Z.inj_mul, Z.mul_comm, Z.div_mul by lia. done.
    + lia.
    + rewrite Hroot, Htake, tree_level_succ. done.
    + intros i Hi. destruct (decide (i < 2 ^ k / 2)%nat) as [Hlow|Hhigh].
      * destruct (Hlev i Hlow) as (j & Hj & Hij). exists (S j). split; [lia|].
        rewrite Hij, Htake, tree_level_succ. done.
      * exists 1%nat. split; [lia|]. rewrite Hrest by lia.
        unfold s1. rewrite lookup_app_l by lia. done.
    + intros i Hi. rewrite Hrest.
      * unfold s1. rewrite lookup_app_r, HP, lookup_drop by lia. f_equal. lia.
      * pose proof (Nat.Div0.div_le_upper_bound (2 ^ k) 2 (2 ^ k)). lia.
Qed.

End HashTreeFacts.

(** *** The power-of-two guard *)

Lemma wrap_int_id (z : Z) : in_int z -> wrap_int z = z.
Proof.
  unfold in_int, int_min, int_max, wrap_int. intros Hz.
  rewrite Z.mod_small by lia. lia.
Qed.

Lemma guard_passes_pow2 (k : nat) :
  (k < 63)%nat ->
  Z.land (2 ^ Z.of_nat k) (wrap_int (2 ^ Z.of_nat k - 1)) = 0.
Proof.
  intros Hk.
  assert (Hle : 2 ^ Z.of_nat k <= 2 ^ 62) by (apply Z.pow_le_mono_r; lia).
  assert (Hpos : 0 < 2 ^ Z.of_nat k) by (apply Z.pow_pos_nonneg; lia).
  rewrite wrap_int_id by (unfold in_int, int_min, int_max; lia).
  replace (2 ^ Z.of_nat k - 1) with (Z.ones (Z.of_nat k))
    by (rewrite Z.ones_equiv; lia).
  rewrite Z.land_ones by lia. apply Z_mod_same_full.
Qed.

Lemma guard_rejects_non_pow2 (nb : Z) :
  0 < nb -> in_int nb -> (forall k : nat, nb <> 2 ^ Z.of_nat k) ->
  Z.land nb (wrap_int (nb - 1)) <> 0.
Proof.
  intros Hpos Hint Hnp.
  rewrite wrap_int_id by (unfold in_int, int_min, int_max in *; lia).
  pose proof (Z.log2_spec nb Hpos) as [Hlo Hhi].
  pose proof (Z.log2_nonneg nb) as Hk.
  specialize (Hnp (Z.to_nat (Z.log2 nb))). rewrite Z2Nat.id in Hnp by done.
  assert (Hlog : Z.log2 (nb - 1) = Z.log2 nb) by (apply Z.log2_unique; lia).
  intros Hland.
  assert (Hbit : Z.testbit (Z.land nb (nb - 1)) (Z.log2 nb) = true).
  { rewrite Z.land_spec, Z.bit_log2 by done.
    rewrite <- Hlog, Z.bit_log2; [done|].
    assert (0 < 2 ^ Z.log2 nb) by (apply Z.pow_pos_nonneg; lia). lia. }
  rewrite Hland, Z.bits_0 in Hbit. discriminate.
Qed.

(** A positive leaf count that is not a power of two stops at the guard. *)
Lemma HashTreeRoot_rejects_non_pow2 (Hash : list Z -> Bytes32)
    (leaves : list Bytes32) (nb : Z) :
  0 < nb -> in_int nb -> (forall k : nat, nb <> 2 ^ Z.of_nat k) ->
  Ssz.HashTreeRoot Hash leaves nb = Panic "nbLeaves must be a power of 2".
Proof.
  intros Hpos Hint Hnp. unfold Ssz.HashTreeRoot.
  destruct (Z.eqb_spec (Z.land nb (wrap_int (nb - 1))) 0) as [He|Hne]; [|done].
  by apply guard_rejects_non_pow2 in He.
Qed.

(** A power-of-two leaf count covered by the slice is reduced to the
    single digest at the top of the tree, and the slice keeps the
    intermediate levels. *)
Lemma HashTreeRoot_pow2 (Hash : list Z -> Bytes32) (leaves : list Bytes32) (k : nat) :
  (k < 63)%nat -> (2 ^ k <= length leaves)%nat ->
  exists leaves' root,
    Ssz.HashTreeRoot Hash leaves (2 ^ Z.of_nat k) = Ok (leaves', root) /\
    length leaves' = length leaves /\
    leaves' !! 0%nat = Some root /\
    Ssz.tree_level Hash k (take (2 ^ k) leaves) !! 0%nat = Some root /\
    (forall i, (i < 2 ^ k / 2)%nat ->
       exists j, (1 <= j <= k)%nat /\
         leaves' !! i = Ssz.tree_level Hash j (take (2 ^ k) leaves) !! i) /\
    (forall i, (2 ^ k / 2 <= i)%nat -> leaves' !! i = leaves !! i).
Proof.
  intros Hk Hlen.
  destruct (reduce_loop_pow2 Hash k leaves Hlen)
    as (s' & Hrun & Hlen' & Hroot & Hlev & Hrest).
  pose proof (pow2_pos k) as Hpos.
  destruct (lookup_lt_is_Some_2 s' 0) as [root Hr]; [lia|].
  exists s', root.
  split; [|split; [done|split; [done|split; [by rewrite <- Hroot|by split]]]].
  unfold Ssz.HashTreeRoot. rewrite guard_passes_pow2 by done. simpl negb. cbv iota.
  replace (2 ^ Z.of_nat k) with (Z.of_nat (2 ^ k)) by (rewrite Nat2Z.inj_pow; done).
  rewrite Hrun, bind_Ok. unfold index. rewrite Hr, bind_Ok. done.
Qed.

(** C10: for a power-of-two leaf count [2^k > 1] covered by the slice,
    the call returns, and afterwards the caller's slice has the same length,
    entry 0 holds the returned root, each of the first [2^k / 2] entries
    holds the hash of an adjacent pair of some lower level of the tree
    (so the leaves that were there are gone), and the entries from
    [2^k / 2] on are untouched. *)
Theorem HashTreeRoot_overwrites_leaves (Hash : list Z -> Bytes32)
    (leaves : list Bytes32) (k : nat) :
  (0 < k < 63)%nat -> (2 ^ k <= length leaves)%nat ->
  exists leaves' root,
    Ssz.HashTreeRoot Hash leaves (2 ^ Z.of_nat k) = Ok (leaves', root) /\
    length leaves' = length leaves /\
    leaves' !! 0%nat = Some root /\
    (forall i, (i < 2 ^ k / 2)%nat ->
       exists j a b, (j < k)%nat /\
         Ssz.tree_level Hash j (take (2 ^ k) leaves) !! (i * 2)%nat = Some a /\
         Ssz.tree_level Hash j (take (2 ^ k) leaves) !! (i * 2 + 1)%nat = Some b /\
         leaves' !! i = Some (Hash (bytes a ++ bytes b))) /\
    (forall i, (2 ^ k / 2 <= i)%nat -> leaves' !! i = leaves !! i).
Proof.
  intros [Hk0 Hk] Hlen.
  destruct (HashTreeRoot_pow2 Hash leaves k Hk Hlen)
    as (leaves' & root & Hrun & Hlen' & Hroot & _ & Hlev & Hrest).
  exists leaves', root. repeat (split; [done|]). split; [|done].
  intros i Hi. destruct (Hlev i Hi) as (j & Hj & Hij).
  pose proof (Nat.Div0.div_le_upper_bound (2 ^ k) 2 (2 ^ k)) as Hhalf.
  pose proof (pow2_pos k) as Hpos.
  destruct (lookup_lt_is_Some_2 leaves' i) as [x Hx]; [lia|].
  destruct j as [|j]; [lia|].
  rewrite Hx in Hij. symmetry in Hij.
  apply pair_hashes_lookup_inv in Hij as (a & b & Ha & Hb & ->).
  exists j, a, b. split; [lia|]. done.
Qed.

Lemma HashTreeRoot_overwrites_leaves_witness :
  exists leaves' root,
    Ssz.HashTreeRoot sample_hash [sample_s0; sample_s1; sample_s2; zero_digest]
      (2 ^ Z.of_nat 2) = Ok (leaves', root) /\
    leaves' !! 0%nat = Some root /\
    leaves' <> [sample_s0; sample_s1; sample_s2; zero_digest].
Proof.
  destruct (HashTreeRoot_overwrites_leaves sample_hash
              [sample_s0; sample_s1; sample_s2; zero_digest] 2)
    as (leaves' & root & Hrun & _ & Hroot & _); [lia|simpl; lia|].
  exists leaves', root. split; [exact Hrun|]. split; [exact Hroot|].
  intros ->. vm_compute in Hrun. discriminate Hrun.
Defined.

(** C6 at the leaf count 0, which is not a power of two: the guard
    [nbLeaves & (nbLeaves-1) != 0] lets it through, no pass runs, and the
    call returns the first entry of a non-empty slice instead of
    panicking. *)
Theorem HashTreeRoot_accepts_zero (Hash : list Z -> Bytes32)
    (d : Bytes32) (rest : list Bytes32) :
  (forall k : nat, 0 <> 2 ^ Z.of_nat k) /\
  Ssz.HashTreeRoot Hash (d :: rest) 0 = Ok (d :: rest, d).
Proof.
  split; [|reflexivity].
  intros k Hk. assert (0 < 2 ^ Z.of_nat k) by (apply Z.pow_pos_nonneg; lia). lia.
Qed.

(** ** The circuit function *)

Lemma HashAndTruncate_mod (sha256 : list Z -> list Z) (bs : list Z) (n : nat) :
  Succinct.HashAndTruncate sha256 bs n = SetBytes (sha256 bs) mod 2 ^ Z.of_nat n.
Proof. unfold Succinct.HashAndTruncate. apply Z.land_ones. lia. Qed.

Lemma HashAndTruncate_range (sha256 : list Z -> list Z) (bs : list Z) (n : nat) :
  0 <= Succinct.HashAndTruncate sha256 bs n < 2 ^ Z.of_nat n.
Proof.
  rewrite HashAndTruncate_mod. apply Z.mod_pos_bound. apply Z.pow_pos_nonneg; lia.
Qed.

(** [Define] adds the two hash-binding equalities after whatever the
    embedded circuit asserted. *)
Lemma Define_appends_hash_binding (sha256 : list Z -> list Z)
    (Ckt : Type) (H : Succinct.Circuit Ckt)
    (api : Succinct.frontend) (f : Succinct.CircuitFunction) :
  fst (Succinct.Define sha256 api f) =
  fst (Succinct.circuit_Define api (Succinct.circuit f)) ++
  [ Succinct.AssertEq (Succinct.cf_InputHash f)
      (Some (Succinct.HashAndTruncate sha256
               (Succinct.load Succinct.GetInputBytes (Succinct.circuit f)) 253));
    Succinct.AssertEq (Succinct.cf_OutputHash f)
      (Some (Succinct.HashAndTruncate sha256
               (Succinct.load Succinct.GetOutputBytes (Succinct.circuit f)) 253)) ].
Proof.
  unfold Succinct.Define, Succinct.AssertIsEqual.
  destruct (Succinct.circuit_Define api (Succinct.circuit f)) as [api' e]. simpl.
  by rewrite <- app_assoc.
Qed.

(** After [SetWitness] the two equalities hold as soon as the input wires
    still carry [inputBytes]. *)
Lemma hash_binding_holds_after_SetWitness (sha256 : list Z -> list Z)
    (Ckt : Type) (H : Succinct.Circuit Ckt)
    (inputBytes : list Z) (f : Succinct.CircuitFunction) :
  let f' := fst (Succinct.SetWitness sha256 inputBytes f) in
  Succinct.load Succinct.GetInputBytes (Succinct.circuit f') = inputBytes ->
  Succinct.satisfied
    [ Succinct.AssertEq (Succinct.cf_InputHash f')
        (Some (Succinct.HashAndTruncate sha256
                 (Succinct.load Succinct.GetInputBytes (Succinct.circuit f')) 253));
      Succinct.AssertEq (Succinct.cf_OutputHash f')
        (Some (Succinct.HashAndTruncate sha256
                 (Succinct.load Succinct.GetOutputBytes (Succinct.circuit f')) 253)) ]
  = true.
Proof.
  intros f' Hin. rewrite Hin. unfold Succinct.satisfied, Succinct.holds. simpl.
  by rewrite !Z.eqb_refl.
Qed.

(** C4: [SetWitness] stores [inputBytes] through the embedded circuit's
    input pointer, then lets the embedded circuit set its witness, then
    assigns [InputHash] the 253-bit truncation of the hash of
    [inputBytes] and [OutputHash] the 253-bit truncation of the hash of
    the output bytes read from the embedded circuit as its own
    [SetWitness] left it. *)
Theorem SetWitness_assigns_hashes (sha256 : list Z -> list Z)
    (Ckt : Type) (H : Succinct.Circuit Ckt)
    (inputBytes : list Z) (f : Succinct.CircuitFunction) :
  let f' := fst (Succinct.SetWitness sha256 inputBytes f) in
  let c' := Succinct.circuit_SetWitness inputBytes
              (Succinct.store Succinct.GetInputBytes inputBytes (Succinct.circuit f)) in
  Succinct.circuit f' = c' /\
  Succinct.cf_InputHash f' = Some (Succinct.HashAndTruncate sha256 inputBytes 253) /\
  Succinct.cf_OutputHash f' =
    Some (Succinct.HashAndTruncate sha256 (Succinct.load Succinct.GetOutputBytes c') 253) /\
  Succinct.HashAndTruncate sha256 inputBytes 253 = SetBytes (sha256 inputBytes) mod 2 ^ 253 /\
  Succinct.HashAndTruncate sha256 (Succinct.load Succinct.GetOutputBytes c') 253 =
    SetBytes (sha256 (Succinct.load Succinct.GetOutputBytes c')) mod 2 ^ 253.
Proof.
  intros f' c'. repeat split; try reflexivity; apply HashAndTruncate_mod.
Qed.

(** C5 at an embedded circuit whose [Define] reports an error: the
    function's own [Define] never returns an error, whatever the embedded
    one returned.  A compiler that rejects the embedded [Define] on its
    own therefore compiles the wrapping function, and [Build] returns a
    build. *)
Theorem Build_drops_embedded_Define_error :
  (forall (sha256 : list Z -> list Z) (Ckt : Type) (H : Succinct.Circuit Ckt)
          (api : Succinct.frontend) (f : Succinct.CircuitFunction),
     snd (Succinct.Define sha256 api f) = None) /\
  Succinct.Compile sample_compile sample_define_error
    (fun api => @Succinct.circuit_Define _ (test_circuit (Some ill_formed)) api empty_circuit)
    = Succinct.Failure (sample_define_error ill_formed) /\
  exists build,
    @Succinct.Build sample_sha256 _ (test_circuit (Some ill_formed)) _ _ _
      sample_compile sample_define_error sample_Setup
      (Succinct.NewCircuitFunction empty_circuit)
    = Succinct.Success build.
Proof.
  split; [|split; [reflexivity|]].
  - intros sha256 Ckt H api f. unfold Succinct.Define.
    by destruct (Succinct.circuit_Define api (Succinct.circuit f)).
  - eexists. vm_compute. reflexivity.
Qed.

(** ** Big-endian bytes *)

Lemma SetBytes_snoc (l : list Z) (x : Z) : SetBytes (l ++ [x]) = SetBytes l * 256 + x.
Proof. unfold SetBytes. by rewrite fold_left_app. Qed.

Lemma be_byte_shift (z : Z) (n i : nat) :
  (i < n)%nat -> be_byte z (S n) i = be_byte (z / 256) n i.
Proof.
  intros Hi. unfold be_byte.
  replace (Z.of_nat (S n - 1 - i)) with (Z.succ (Z.of_nat (n - 1 - i))) by lia.
  rewrite Z.pow_succ_r by lia. rewrite Z.div_div by lia. done.
Qed.

Lemma be_bytes_succ (z : Z) (n : nat) :
  map (be_byte z (S n)) (seq 0 (S n)) = map (be_byte (z / 256) n) (seq 0 n) ++ [z mod 256].
Proof.
  rewrite seq_S, map_app. f_equal.
  - apply map_ext_in. intros i Hi. apply in_seq in Hi. apply be_byte_shift. lia.
  - simpl. unfold be_byte. replace (S n - 1 - n)%nat with 0%nat by lia.
    by rewrite Z.div_1_r.
Qed.

(** Reading back the [n] big-endian bytes of [z] gives [z] modulo [256^n]. *)
Lemma SetBytes_be_bytes (n : nat) (z : Z) :
  SetBytes (map (be_byte z n) (seq 0 n)) = z mod 256 ^ Z.of_nat n.
Proof.
  revert z. induction n as [|n IH]; intros z.
  - simpl. by rewrite Z.mod_1_r.
  - rewrite be_bytes_succ, SetBytes_snoc, IH.
    rewrite Nat2Z.inj_succ, Z.pow_succ_r by lia.
    assert (0 < 256 ^ Z.of_nat n) by (apply Z.pow_pos_nonneg; lia).
    rewrite Z.rem_mul_r by lia. lia.
Qed.

Lemma FillBytes_spec (z : Z) (n : nat) (buf : list Z) :
  FillBytes z n = Ok buf ->
  length buf = n /\ SetBytes buf = Z.abs z /\ buf = map (be_byte (Z.abs z) n) (seq 0 n).
Proof.
  unfold FillBytes. destruct (Z.ltb_spec (Z.abs z) (256 ^ Z.of_nat n)) as [Hlt|]; [|done].
  intros [= <-]. split; [by rewrite length_map, length_seq|]. split; [|done].
  rewrite SetBytes_be_bytes. apply Z.mod_small. lia.
Qed.

(** [SetBytes] reads a byte string as the integer it denotes. *)
Lemma SetBytes_acc (l : list Z) (a : Z) :
  fold_left (fun acc x => acc * 256 + x) l a =
  a * 256 ^ Z.of_nat (length l) + big_endian l.
Proof.
  revert a. induction l as [|b l IH]; intros a; simpl fold_left.
  - simpl. lia.
  - rewrite IH. cbn [big_endian length].
    rewrite Nat2Z.inj_succ, Z.pow_succ_r by lia. lia.
Qed.

Lemma SetBytes_big_endian (l : list Z) : SetBytes l = big_endian l.
Proof. unfold SetBytes. rewrite SetBytes_acc. lia. Qed.

Lemma be_bytes_are_bytes (z : Z) (n : nat) :
  Forall is_byte (map (be_byte z n) (seq 0 n)).
Proof.
  apply Forall_forall. intros b Hb. apply list_elem_of_In, in_map_iff in Hb as (i & <- & _).
  unfold is_byte, be_byte. apply Z.mod_pos_bound. lia.
Qed.

(** What [FillBytes] leaves in the buffer: [n] bytes that denote the
    absolute value. *)
Lemma FillBytes_bytes (z : Z) (n : nat) (buf : list Z) :
  FillBytes z n = Ok buf ->
  length buf = n /\ Forall is_byte buf /\ big_endian buf = Z.abs z.
Proof.
  intros Hf. destruct (FillBytes_spec z n buf Hf) as (Hlen & Hval & ->).
  split; [done|]. split; [apply be_bytes_are_bytes|].
  by rewrite <- SetBytes_big_endian.
Qed.

Lemma slice_Ok {A : Type} (s : go_slice A) (w : list A) (lo hi : nat) :
  slice s lo hi = Ok w ->
  (lo <= hi <= cap s)%nat /\ w = take (hi - lo) (drop lo (array s)) /\
  length w = (hi - lo)%nat.
Proof.
  unfold slice, cap. case_decide as Hr; [|done]. intros [= <-].
  split; [done|]. split; [done|]. rewrite length_take, length_drop. lia.
Qed.

(** ** Prove *)

Ltac step_bind H :=
  match type of H with
  | mbind _ ?m = _ =>
      let E := fresh "E" in
      destruct m eqn:E; [rewrite bind_Ok in H | discriminate H]
  end.

Lemma slice_word (raw : go_slice Z) (w : list Z) (i : nat) :
  slice raw (Succinct.fpSize * i) (Succinct.fpSize * (i + 1)) = Ok w ->
  SetBytes w = proof_word (array raw) i /\ length w = 32%nat /\
  (32 * (i + 1) <= cap raw)%nat.
Proof.
  intros Hs. apply slice_Ok in Hs as (Hr & -> & Hlen).
  unfold Succinct.fpSize in *. change (4 * 8)%nat with 32%nat in *.
  replace (32 * (i + 1) - 32 * i)%nat with 32%nat in * by lia.
  unfold proof_word. rewrite SetBytes_big_endian. split; [done|]. split; [done|lia].
Qed.

(** A word that lies within the elements of a slice is read from them. *)
Lemma proof_word_elements (raw : go_slice Z) (i : nat) :
  (32 * (i + 1) <= len raw)%nat ->
  proof_word (array raw) i = proof_word (elements raw) i.
Proof.
  intros Hi. unfold proof_word, elements. f_equal.
  rewrite skipn_firstn_comm, take_take. f_equal. lia.
Qed.

(** C7: a successful [Prove] returns as coordinates the eight integers
    denoted, most significant byte first, by the 32-byte words at offsets
    0, 32, ..., 224 of the raw proof buffer, in the order A[0], A[1],
    B[0][0], B[0][1], B[1][0], B[1][1], C[0], C[1]; the words are those of
    the raw serialisation itself as soon as it has its 256 bytes.
    [InputHash] and [OutputHash] are 32 bytes each, denoting the values
    [SetWitness] assigned to the two public wires. *)
Theorem Prove_packs_proof (sha256 : list Z -> list Z)
    (Ckt : Type) (H : Succinct.Circuit Ckt)
    (ConstraintSystem ProvingKey VerifyingKey Witness Proof Entropy : Type)
    (NewWitness : Succinct.CircuitFunction -> Succinct.result Witness)
    (groth16_Prove :
       ConstraintSystem -> ProvingKey -> Witness -> Entropy -> Succinct.result Proof)
    (WriteRawTo : Proof -> go_slice Z)
    (entropy : Entropy) (inputBytes : list Z)
    (build : Succinct.CircuitBuild ConstraintSystem ProvingKey VerifyingKey)
    (f f' : Succinct.CircuitFunction) (p : Succinct.Groth16Proof)
    (out : list Succinct.event) :
  Succinct.Prove sha256 NewWitness groth16_Prove WriteRawTo entropy inputBytes build f
    = Ok (Succinct.Success p, f', out) ->
  exists witness proof,
    f' = fst (Succinct.SetWitness sha256 inputBytes f) /\
    NewWitness f' = Succinct.Success witness /\
    groth16_Prove (Succinct.r1cs build) (Succinct.pk build) witness entropy
      = Succinct.Success proof /\
    (256 <= cap (WriteRawTo proof))%nat /\
    Succinct.A p = (proof_word (array (WriteRawTo proof)) 0,
                    proof_word (array (WriteRawTo proof)) 1) /\
    Succinct.B p = ((proof_word (array (WriteRawTo proof)) 2,
                     proof_word (array (WriteRawTo proof)) 3),
                    (proof_word (array (WriteRawTo proof)) 4,
                     proof_word (array (WriteRawTo proof)) 5)) /\
    Succinct.C p = (proof_word (array (WriteRawTo proof)) 6,
                    proof_word (array (WriteRawTo proof)) 7) /\
    ((256 <= len (WriteRawTo proof))%nat ->
     forall i, (i < 8)%nat ->
       proof_word (array (WriteRawTo proof)) i =
       proof_word (elements (WriteRawTo proof)) i) /\
    length (Succinct.InputHash p) = 32%nat /\
    Forall is_byte (Succinct.InputHash p) /\
    big_endian (Succinct.InputHash p) = Succinct.HashAndTruncate sha256 inputBytes 253 /\
    Succinct.cf_InputHash f' = Some (big_endian (Succinct.InputHash p)) /\
    length (Succinct.OutputHash p) = 32%nat /\
    Forall is_byte (Succinct.OutputHash p) /\
    big_endian (Succinct.OutputHash p) =
      Succinct.HashAndTruncate sha256
        (Succinct.load Succinct.GetOutputBytes (Succinct.circuit f')) 253 /\
    Succinct.cf_OutputHash f' = Some (big_endian (Succinct.OutputHash p)).
Proof.
  intros Hp. unfold Succinct.Prove in Hp.
  destruct (Succinct.SetWitness sha256 inputBytes f) as [f1 out1] eqn:Esw.
  destruct (NewWitness f1) as [witness|] eqn:Ew; [|done].
  destruct (groth16_Prove _ _ witness entropy) as [proof|] eqn:Ep; [|done].
  do 8 step_bind Hp.
  apply (slice_word _ _ 0) in E as (Hw0 & _ & _).
  apply (slice_word _ _ 1) in E0 as (Hw1 & _ & _).
  apply (slice_word _ _ 2) in E1 as (Hw2 & _ & _).
  apply (slice_word _ _ 3) in E2 as (Hw3 & _ & _).
  apply (slice_word _ _ 4) in E3 as (Hw4 & _ & _).
  apply (slice_word _ _ 5) in E4 as (Hw5 & _ & _).
  apply (slice_word _ _ 6) in E5 as (Hw6 & _ & _).
  apply (slice_word _ _ 7) in E6 as (Hw7 & _ & Hlen).
  rewrite Hw0, Hw1, Hw2, Hw3, Hw4, Hw5, Hw6, Hw7 in Hp.
  assert (Hf1 : f1 = fst (Succinct.SetWitness sha256 inputBytes f)) by (by rewrite Esw).
  assert (Hin : Succinct.cf_InputHash f1 =
                Some (Succinct.HashAndTruncate sha256 inputBytes 253))
    by (by rewrite Hf1).
  assert (Hout : Succinct.cf_OutputHash f1 =
                 Some (Succinct.HashAndTruncate sha256
                         (Succinct.load Succinct.GetOutputBytes (Succinct.circuit f1)) 253))
    by (by rewrite Hf1).
  rewrite Hin, Hout in Hp.
  unfold Succinct.as_big_Int in Hp. rewrite bind_Ok in Hp.
  step_bind Hp. rewrite bind_Ok in Hp. step_bind Hp.
  apply FillBytes_bytes in E as (Hl1 & Hb1 & Hv1).
  apply FillBytes_bytes in E0 as (Hl2 & Hb2 & Hv2).
  rewrite Z.abs_eq in Hv1 by apply HashAndTruncate_range.
  rewrite Z.abs_eq in Hv2 by apply HashAndTruncate_range.
  injection Hp as <- <- <-. exists witness, proof. simpl.
  rewrite Hv1, Hv2. repeat (split; [done|]).
  split; [|done]. intros Hfull i Hi. apply proof_word_elements. lia.
Qed.

Lemma slice_in_range {A : Type} (s : go_slice A) (lo hi : nat) :
  (lo <= hi <= cap s)%nat -> slice s lo hi = Ok (take (hi - lo) (drop lo (array s))).
Proof. intros Hr. unfold slice. by rewrite decide_True. Qed.

Lemma FillBytes_truncated (sha256 : list Z -> list Z) (bs : list Z) :
  exists buf, FillBytes (Succinct.HashAndTruncate sha256 bs 253) 32 = Ok buf.
Proof.
  pose proof (HashAndTruncate_range sha256 bs 253) as [Hlo Hhi].
  unfold FillBytes. rewrite Z.abs_eq by done.
  assert (Hlt : 2 ^ Z.of_nat 253 < 256 ^ Z.of_nat 32) by (vm_compute; done).
  destruct (Z.ltb_spec (Succinct.HashAndTruncate sha256 bs 253) (256 ^ Z.of_nat 32));
    [by eexists|lia].
Qed.

(** [Prove] returns a proof whenever the witness is built, the back end
    proves, and the raw proof buffer has a capacity of 256 bytes; it does
    not look at how many bytes were written. *)
Lemma Prove_succeeds (sha256 : list Z -> list Z)
    (Ckt : Type) (H : Succinct.Circuit Ckt)
    (ConstraintSystem ProvingKey VerifyingKey Witness Proof Entropy : Type)
    (NewWitness : Succinct.CircuitFunction -> Succinct.result Witness)
    (groth16_Prove :
       ConstraintSystem -> ProvingKey -> Witness -> Entropy -> Succinct.result Proof)
    (WriteRawTo : Proof -> go_slice Z)
    (entropy : Entropy) (inputBytes : list Z)
    (build : Succinct.CircuitBuild ConstraintSystem ProvingKey VerifyingKey)
    (f : Succinct.CircuitFunction) (witness : Witness) (proof : Proof) :
  NewWitness (fst (Succinct.SetWitness sha256 inputBytes f)) = Succinct.Success witness ->
  groth16_Prove (Succinct.r1cs build) (Succinct.pk build) witness entropy
    = Succinct.Success proof ->
  (256 <= cap (WriteRawTo proof))%nat ->
  exists p,
    Succinct.Prove sha256 NewWitness groth16_Prove WriteRawTo entropy inputBytes build f
    = Ok (Succinct.Success p, fst (Succinct.SetWitness sha256 inputBytes f),
          snd (Succinct.SetWitness sha256 inputBytes f)).
Proof.
  intros Hw Hp Hlen. unfold Succinct.Prove.
  destruct (Succinct.SetWitness sha256 inputBytes f) as [f1 out1] eqn:Esw.
  simpl in Hw. rewrite Hw, Hp.
  unfold Succinct.fpSize. change (4 * 8)%nat with 32%nat.
  rewrite !slice_in_range by (simpl; lia). rewrite !bind_Ok.
  unfold Succinct.SetWitness in Esw. injection Esw as <- _. simpl.
  destruct (FillBytes_truncated sha256 inputBytes) as [b1 ->].
  match goal with
  | |- context [FillBytes (Succinct.HashAndTruncate sha256 ?o 253) 32] =>
      destruct (FillBytes_truncated sha256 o) as [b2 ->]
  end.
  rewrite !bind_Ok. by eexists.
Qed.

Lemma Prove_packs_proof_witness :
  exists p f' out,
    @Succinct.Prove sample_sha256 _ (test_circuit None) _ _ _ _ _ _
      sample_NewWitness sample_Prove exact_buffer 7 [1; 2; 3] sample_build
      (Succinct.NewCircuitFunction empty_circuit)
    = Ok (Succinct.Success p, f', out) /\
    Succinct.A p =
      (proof_word (map (fun i => (Z.of_nat i + 7) mod 256) (seq 0 256)) 0,
       proof_word (map (fun i => (Z.of_nat i + 7) mod 256) (seq 0 256)) 1) /\
    length (Succinct.InputHash p) = 32%nat.
Proof.
  assert (Hrun : exists p f' out,
            @Succinct.Prove sample_sha256 _ (test_circuit None) _ _ _ _ _ _
              sample_NewWitness sample_Prove exact_buffer 7 [1; 2; 3] sample_build
              (Succinct.NewCircuitFunction empty_circuit)
            = Ok (Succinct.Success p, f', out))
    by (do 3 eexists; vm_compute; reflexivity).
  destruct Hrun as (p & f' & out & Hrun).
  exists p, f', out. split; [exact Hrun|].
  destruct (Prove_packs_proof _ _ _ _ _ _ _ _ _ _ _ _ _ _ _ _ _ _ _ Hrun)
    as (w & pr & _ & _ & Hpr & _ & HA & _ & _ & _ & Hlen & _).
  injection Hpr as <-. split; [exact HA|exact Hlen].
Defined.

(** ** Export and import of a build *)

Lemma run_steps_success (steps : list Succinct.export_step) :
  Forall (fun st => Succinct.answer st = None) steps ->
  Succinct.run_steps steps =
  map Succinct.done_event steps ++ map Succinct.Close (rev (omap Succinct.opened steps)).
Proof.
  induction 1 as [|st rest Hst _ IH]; [done|].
  simpl. rewrite Hst, IH. destruct (Succinct.opened st) as [path|]; simpl; [|done].
  by rewrite map_app, <- app_assoc.
Qed.

(** The first failing step is printed with its label and error; nothing
    follows but the closing of the files opened so far. *)
Lemma run_steps_failure (pre post : list Succinct.export_step)
    (st : Succinct.export_step) (err : Succinct.error) :
  Forall (fun st => Succinct.answer st = None) pre ->
  Succinct.answer st = Some err ->
  Succinct.run_steps (pre ++ st :: post) =
  map Succinct.done_event pre ++
  Succinct.PrintErr (Succinct.failure_label st) err ::
  map Succinct.Close (rev (omap Succinct.opened pre)).
Proof.
  intros Hpre Hst. induction Hpre as [|s rest Hs _ IH]; simpl.
  - by rewrite Hst.
  - rewrite Hs, IH. destruct (Succinct.opened s) as [path|]; simpl; [|done].
    by rewrite map_app, <- app_assoc.
Qed.

Lemma Export_run_steps {CS PK VK : Type} (env : Succinct.os CS PK)
    (build : Succinct.CircuitBuild CS PK VK) :
  Succinct.vk build <> None ->
  Succinct.Export env build = Succinct.run_steps (Succinct.export_steps env).
Proof.
  intros Hvk. unfold Succinct.Export, Succinct.export_steps. simpl.
  destruct (Succinct.vk build); [|done].
  repeat match goal with
         | |- context [match ?a with Some _ => _ | None => _ end] =>
             destruct a; try reflexivity
         end.
Qed.

(** With or without a verifying key, a failure among the six steps
    before the write of [build/vkey.bin] is handled alike. *)
Lemma Export_early_failure {CS PK VK : Type} (env : Succinct.os CS PK)
    (build : Succinct.CircuitBuild CS PK VK)
    (pre post : list Succinct.export_step) (st : Succinct.export_step)
    (err : Succinct.error) :
  Succinct.export_steps env = pre ++ st :: post ->
  (length pre < 6)%nat ->
  Forall (fun s => Succinct.answer s = None) pre ->
  Succinct.answer st = Some err ->
  Succinct.Export env build =
  map Succinct.done_event pre ++
  Succinct.PrintErr (Succinct.failure_label st) err ::
  map Succinct.Close (rev (omap Succinct.opened pre)).
Proof.
  intros Hsteps Hlen Hpre Hst. unfold Succinct.export_steps in Hsteps.
  destruct pre as [|s1 [|s2 [|s3 [|s4 [|s5 [|s6 [|s7 pre]]]]]]];
    simpl in Hlen; try lia;
    simplify_eq/=;
    repeat match goal with
           | Hf : Forall _ (_ :: _) |- _ => apply Forall_cons in Hf as [? Hf]
           end;
    simpl in *; unfold Succinct.Export;
    repeat match goal with
           | Ha : _ = None |- _ => rewrite Ha; clear Ha
           | Ha : _ = Some _ |- _ => rewrite Ha; clear Ha
           end;
    reflexivity.
Qed.

(** C8 (as amended): importing succeeds exactly when both files open
    and decode, and then returns the decoded proving key and constraint
    system with the verifying key unset; every import failure is returned
    as the underlying error wrapped with "failed to open file" or "failed
    to read data".  An export failure is not returned ([Export] has no
    result): the first failing step is printed with its label and error
    and nothing follows but closing the files opened so far.  This holds
    for every build; for one without a verifying key the steps that can
    fail are the six before the write of [build/vkey.bin], where [Export]
    stops on the nil key. *)
Theorem artifact_io_failures (CS PK VK : Type) (env : Succinct.os CS PK)
    (build : Succinct.CircuitBuild CS PK VK) :
  (forall b : Succinct.CircuitBuild CS PK VK,
     fst (Succinct.ImportCircuitBuild env) = Succinct.Success b <->
     Succinct.os_Open env "build/pkey.bin" = None /\
     Succinct.pk_ReadFrom env = Succinct.Success (Succinct.pk b) /\
     Succinct.os_Open env "build/r1cs.bin" = None /\
     Succinct.r1cs_ReadFrom env = Succinct.Success (Succinct.r1cs b) /\
     Succinct.vk b = None) /\
  (forall e : Succinct.error,
     fst (@Succinct.ImportCircuitBuild CS PK VK env) = Succinct.Failure e ->
     exists cause,
       (e = Succinct.Wrapped "failed to open file" cause /\
        (Succinct.os_Open env "build/pkey.bin" = Some cause \/
         Succinct.os_Open env "build/r1cs.bin" = Some cause)) \/
       (e = Succinct.Wrapped "failed to read data" cause /\
        (Succinct.pk_ReadFrom env = Succinct.Failure cause \/
         Succinct.r1cs_ReadFrom env = Succinct.Failure cause))) /\
  (forall pre st post err,
     Succinct.export_steps env = pre ++ st :: post ->
     (Succinct.vk build = None -> (length pre < 6)%nat) ->
     Forall (fun s => Succinct.answer s = None) pre ->
     Succinct.answer st = Some err ->
     Succinct.Export env build =
     map Succinct.done_event pre ++
     Succinct.PrintErr (Succinct.failure_label st) err ::
     map Succinct.Close (rev (omap Succinct.opened pre))) /\
  (Succinct.vk build = None ->
   Forall (fun s => Succinct.answer s = None) (take 6 (Succinct.export_steps env)) ->
   Succinct.Export env build =
   map Succinct.done_event (take 6 (Succinct.export_steps env)) ++
   Succinct.NilDereference ::
   map Succinct.Close (rev (omap Succinct.opened (take 6 (Succinct.export_steps env))))).
Proof.
  split; [|split].
  - intros b. unfold Succinct.ImportCircuitBuild.
    destruct (Succinct.os_Open env "build/pkey.bin") as [e1|];
      [simpl; split; [done|by intros [? _]]|].
    destruct (Succinct.pk_ReadFrom env) as [pkey|e2];
      [|simpl; split; [done|by intros (_ & ? & _)]].
    destruct (Succinct.os_Open env "build/r1cs.bin") as [e3|];
      [simpl; split; [done|by intros (_ & _ & ? & _)]|].
    destruct (Succinct.r1cs_ReadFrom env) as [cs|e4];
      [|simpl; split; [done|by intros (_ & _ & _ & ? & _)]].
    simpl. split.
    + intros [= <-]. done.
    + intros (_ & [= ->] & _ & [= ->] & Hvk). destruct b as [p v c].
      simpl in *. by subst.
  - intros e. unfold Succinct.ImportCircuitBuild.
    destruct (Succinct.os_Open env "build/pkey.bin") as [e1|];
      [simpl; intros [= <-]; exists e1; left; auto|].
    destruct (Succinct.pk_ReadFrom env) as [pkey|e2];
      [|simpl; intros [= <-]; exists e2; right; auto].
    destruct (Succinct.os_Open env "build/r1cs.bin") as [e3|];
      [simpl; intros [= <-]; exists e3; left; auto|].
    destruct (Succinct.r1cs_ReadFrom env) as [cs|e4];
      [done|simpl; intros [= <-]; exists e4; right; auto].
  - split.
    + intros pre st post err Hsteps Hreach Hpre Hst.
      destruct (Succinct.vk build) as [v|] eqn:Hvk.
      * rewrite Export_run_steps, Hsteps by (by rewrite Hvk).
        by apply run_steps_failure.
      * apply (Export_early_failure env build pre post st err); auto.
    + intros Hvk Hpre. unfold Succinct.export_steps in Hpre. simpl in Hpre.
      repeat match goal with
             | Hf : Forall _ (_ :: _) |- _ => apply Forall_cons in Hf as [? Hf]
             end.
      simpl in *. unfold Succinct.Export. rewrite Hvk.
      repeat match goal with
             | Ha : _ = None |- _ => rewrite Ha; clear Ha
             end.
      reflexivity.
Qed.

(** C8 as stated fails: a truncated proving key and a truncated
    constraint system give the caller the very same error, which names no
    artifact, and an export that cannot create [build/r1cs.bin] only
    prints the failure. *)
Lemma artifact_failure_not_identified :
  fst (@Succinct.ImportCircuitBuild _ _ nat
         (sample_os (Succinct.Failure unexpected_EOF) (Succinct.Success [])))
    = Succinct.Failure (Succinct.Wrapped "failed to read data" unexpected_EOF) /\
  fst (@Succinct.ImportCircuitBuild _ _ nat
         (sample_os (Succinct.Success 2%nat) (Succinct.Failure unexpected_EOF)))
    = Succinct.Failure (Succinct.Wrapped "failed to read data" unexpected_EOF) /\
  Succinct.error_text (Succinct.Wrapped "failed to read data" unexpected_EOF)
    = "failed to read data: unexpected EOF" /\
  Succinct.Export read_only_os sample_build =
    [Succinct.MkdirAll "build";
     Succinct.PrintErr "Failed to create file:"
       (Succinct.PathError "open" "build/r1cs.bin"
          (Succinct.ErrorString "permission denied"))].
Proof. repeat split. Qed.

Lemma artifact_io_failures_witness :
  Succinct.Export read_only_os
    {| Succinct.pk := 2%nat; Succinct.vk := @None nat; Succinct.r1cs := [] |} =
  [Succinct.MkdirAll "build";
   Succinct.PrintErr "Failed to create file:"
     (Succinct.PathError "open" "build/r1cs.bin"
        (Succinct.ErrorString "permission denied"))].
Proof.
  destruct (artifact_io_failures _ _ _ read_only_os
              {| Succinct.pk := 2%nat; Succinct.vk := @None nat; Succinct.r1cs := [] |})
    as (_ & _ & Hexport & _).
  exact (Hexport
           [ {| Succinct.answer := None;
                Succinct.failure_label := "Failed to create directory:";
                Succinct.done_event := Succinct.MkdirAll "build";
                Succinct.opened := None |} ]
           _ _ _ eq_refl ltac:(intros _; simpl; lia)
           ltac:(repeat constructor) eq_refl).
Defined.

(** * Further properties of the SSZ gadgets *)

Lemma for_range_app {St : Type} (body : nat -> St -> St) (n m lo : nat) (s : St) :
  for_range lo (n + m) body s = for_range (lo + n) m body (for_range lo n body s).
Proof.
  revert lo s. induction n as [|n IH]; intros lo s; simpl.
  - by rewrite Nat.add_0_r.
  - rewrite IH. by rewrite Nat.add_succ_r.
Qed.

Lemma for_range_shift {St : Type} (body : nat -> St -> St) (n lo : nat) (s : St) :
  for_range lo n body s = for_range 0 n (fun i => body (lo + i)%nat) s.
Proof.
  revert body lo s. induction n as [|n IH]; intros body lo s; simpl; [done|].
  rewrite Nat.add_0_r, (IH body), (IH (fun i => body (lo + i)%nat) 1%nat).
  apply for_range_ext. intros i t _. f_equal. lia.
Qed.

Section RestoreCompose.

Variable Hash : list Z -> Bytes32.

(** The levels of [RestoreMerkleRoot] with Go's own division, for any
    gindex. *)
Lemma restore_state_go leaf proof g n :
  snd (Ssz.restore_state Hash leaf proof g n) = go_div g (2 ^ Z.of_nat n).
Proof.
  induction n as [|n IH].
  - unfold Ssz.restore_state, go_div. simpl. by rewrite Z.quot_1_r.
  - rewrite restore_state_succ.
    destruct (Ssz.restore_state Hash leaf proof g n) as [h g'] eqn:E.
    simpl in *. subst g'. unfold go_div.
    assert (2 ^ Z.of_nat n <> 0) by (apply Z.pow_nonzero; lia).
    rewrite Z.quot_quot by lia.
    rewrite Nat2Z.inj_succ, Z.pow_succ_r by lia. f_equal. lia.
Qed.

Lemma restore_state_app_l leaf p1 p2 g n :
  (n <= length p1)%nat ->
  Ssz.restore_state Hash leaf (p1 ++ p2) g n = Ssz.restore_state Hash leaf p1 g n.
Proof.
  intros Hn. unfold Ssz.restore_state. apply for_range_ext.
  intros i [h g'] Hi. unfold Ssz.restore_step.
  rewrite lookup_total_app_l by lia. done.
Qed.

End RestoreCompose.

(** X1: a proof that is the concatenation of two proofs is restored in
    two stages: the first part takes the leaf to an inner node, the second
    part takes that node on with the gindex divided by [2^len(first)]
    (Go's truncating division), for every gindex. *)
Theorem RestoreMerkleRoot_app (Hash : list Z -> Bytes32)
    (leaf : Bytes32) (p1 p2 : list Bytes32) (gindex : Z) :
  Ssz.RestoreMerkleRoot Hash leaf (p1 ++ p2) gindex =
  Ssz.RestoreMerkleRoot Hash (Ssz.RestoreMerkleRoot Hash leaf p1 gindex) p2
    (go_div gindex (2 ^ Z.of_nat (length p1))).
Proof.
  unfold Ssz.RestoreMerkleRoot at 1. unfold Ssz.restore_state.
  rewrite length_app, for_range_app, Nat.add_0_l.
  fold (Ssz.restore_state Hash leaf (p1 ++ p2) gindex (length p1)).
  rewrite restore_state_app_l by done.
  pose proof (restore_state_go Hash leaf p1 gindex (length p1)) as Hg.
  unfold Ssz.RestoreMerkleRoot at 2.
  destruct (Ssz.restore_state Hash leaf p1 gindex (length p1)) as [h g'] eqn:E.
  simpl in *. subst g'. rewrite for_range_shift.
  unfold Ssz.RestoreMerkleRoot, Ssz.restore_state. f_equal.
  apply for_range_ext. intros i [h' g'] Hi. unfold Ssz.restore_step.
  rewrite lookup_total_app_r by lia.
  replace (length p1 + i - length p1)%nat with i by lia. done.
Qed.

Lemma spec_level_low_bits (Hash : list Z -> Bytes32) leaf proof g1 g2 (n : nat) :
  (forall i, (i < n)%nat -> Z.testbit g1 (Z.of_nat i) = Z.testbit g2 (Z.of_nat i)) ->
  Ssz.spec_level Hash leaf proof g1 n = Ssz.spec_level Hash leaf proof g2 n.
Proof.
  induction n as [|n IH]; intros Hbits; [done|].
  simpl. rewrite IH by (intros i Hi; apply Hbits; lia).
  rewrite <- !testbit_halvings, (Hbits n) by lia. done.
Qed.

(** X2: the constant-gindex reconstruction never looks at the bits of the
    gindex from position [len(proof)] up, so it does not check the depth
    the gindex claims: non-negative values that agree modulo
    [2^len(proof)] restore the same root. *)
Theorem RestoreMerkleRoot_ignores_high_bits (Hash : list Z -> Bytes32)
    (leaf : Bytes32) (proof : list Bytes32) (g1 g2 : Z) :
  0 <= g1 -> 0 <= g2 ->
  g1 mod 2 ^ Z.of_nat (length proof) = g2 mod 2 ^ Z.of_nat (length proof) ->
  Ssz.RestoreMerkleRoot Hash leaf proof g1 = Ssz.RestoreMerkleRoot Hash leaf proof g2.
Proof.
  intros H1 H2 Hmod. unfold Ssz.RestoreMerkleRoot.
  rewrite !restore_state_spec by done. simpl.
  apply spec_level_low_bits. intros i Hi.
  by apply (low_bits_of_mod g1 g2 (length proof)).
Qed.

Lemma RestoreMerkleRoot_ignores_high_bits_witness :
  Ssz.RestoreMerkleRoot sample_hash zero_digest [sample_s0; sample_s1] 5 =
  Ssz.RestoreMerkleRoot sample_hash zero_digest [sample_s0; sample_s1] 13.
Proof.
  apply (RestoreMerkleRoot_ignores_high_bits sample_hash zero_digest
           [sample_s0; sample_s1] 5 13); [lia|lia|reflexivity].
Defined.

(** ** The tree above the leaves *)

Section TreeFacts.

Variable Hash : list Z -> Bytes32.

Lemma tree_level_length (l : list Bytes32) (k j : nat) :
  length l = (2 ^ k)%nat -> (j <= k)%nat ->
  length (Ssz.tree_level Hash j l) = (2 ^ (k - j))%nat.
Proof.
  intros Hl. induction j as [|j IH]; intros Hj.
  - simpl. by rewrite Nat.sub_0_r.
  - change (Ssz.tree_level Hash (S j) l)
      with (Ssz.pair_hashes Hash (Ssz.tree_level Hash j l)).
    rewrite pair_hashes_length, IH by lia.
    replace (k - j)%nat with (S (k - S j)) by lia. apply pow2_half.
Qed.

Lemma merkle_path_lookup (l : list Bytes32) (k i j : nat) :
  (j < k)%nat ->
  merkle_path Hash l k i !!! j = Ssz.tree_level Hash j l !!! sibling (i / 2 ^ j).
Proof.
  intros Hj. apply list_lookup_total_correct. unfold merkle_path.
  rewrite list_lookup_fmap, lookup_seq_lt by done. done.
Qed.

End TreeFacts.

Lemma odd_of_nat (m : nat) : Z.odd (Z.of_nat m) = Nat.odd m.
Proof.
  induction m as [|m IH]; [done|].
  rewrite Nat2Z.inj_succ, Z.odd_succ, Nat.odd_succ.
  by rewrite <- Z.negb_odd, <- Nat.negb_odd, IH.
Qed.

Lemma gindex_parity (k i j : nat) :
  (j < k)%nat ->
  Z.odd ((2 ^ Z.of_nat k + Z.of_nat i) / 2 ^ Z.of_nat j) = Nat.odd (i / 2 ^ j).
Proof.
  intros Hj.
  replace (Z.of_nat k) with (Z.of_nat (k - j) + Z.of_nat j) by lia.
  rewrite Z.pow_add_r, Z.div_add_l by (try apply Z.pow_nonzero; lia).
  rewrite Z.add_comm, Z.odd_add_even.
  - replace 2 with (Z.of_nat 2) at 1 by done.
    rewrite <- Nat2Z.inj_pow, <- Nat2Z.inj_div. apply odd_of_nat.
  - exists (2 ^ (Z.of_nat (k - j) - 1)).
    rewrite <- Z.pow_succ_r by lia. f_equal. lia.
Qed.

Lemma half_cases (m : nat) :
  exists q, (m / 2 = q)%nat /\
    ((Nat.odd m = false /\ m = (q * 2)%nat /\ sibling m = (q * 2 + 1)%nat) \/
     (Nat.odd m = true /\ m = (q * 2 + 1)%nat /\ sibling m = (q * 2)%nat)).
Proof.
  unfold sibling. rewrite <- (Nat.negb_even m).
  destruct (Nat.even m) eqn:Ev.
  - apply Nat.even_spec in Ev as [q ->]. exists q. split.
    + symmetry. apply (Nat.div_unique _ _ _ 0); lia.
    + left. simpl. lia.
  - assert (Hodd : Nat.odd m = true) by (by rewrite <- Nat.negb_even, Ev).
    apply Nat.odd_spec in Hodd as [q ->]. exists q. split.
    + symmetry. apply (Nat.div_unique _ _ _ 1); lia.
    + right. simpl. replace (q + (q + 0) + 1)%nat with (S (q * 2)) by lia.
      simpl. lia.
Qed.

(** Following an honest path from leaf [i] visits, at level [j], node
    [i / 2^j] of the tree. *)
Lemma honest_path_level (Hash : list Z -> Bytes32)
    (L : list Bytes32) (k i : nat) (leaf : Bytes32) :
  length L = (2 ^ k)%nat -> (i < 2 ^ k)%nat -> L !! i = Some leaf ->
  forall j, (j <= k)%nat ->
    Ssz.tree_level Hash j L !! (i / 2 ^ j)%nat =
    Some (Ssz.spec_level Hash leaf (merkle_path Hash L k i)
            (2 ^ Z.of_nat k + Z.of_nat i) j).
Proof.
  intros HL Hi Hleaf. induction j as [|j IH]; intros Hj.
  - change (2 ^ 0)%nat with 1%nat. rewrite Nat.div_1_r. done.
  - specialize (IH ltac:(lia)).
    set (lvl := Ssz.tree_level Hash j L) in *.
    assert (Hlen : length lvl = (2 * 2 ^ (k - S j))%nat).
    { unfold lvl. rewrite (tree_level_length Hash L k j) by (done || lia).
      replace (k - j)%nat with (S (k - S j)) by lia. apply Nat.pow_succ_r'. }
    assert (Hm : (i / 2 ^ j < length lvl)%nat).
    { rewrite Hlen. apply Nat.Div0.div_lt_upper_bound.
      rewrite <- Nat.pow_succ_r', <- Nat.pow_add_r.
      replace (j + S (k - S j))%nat with k by lia. done. }
    assert (Hdiv : (i / 2 ^ S j = i / 2 ^ j / 2)%nat).
    { rewrite Nat.Div0.div_div. f_equal. rewrite Nat.pow_succ_r'. lia. }
    change (Ssz.tree_level Hash (S j) L) with (Ssz.pair_hashes Hash lvl).
    rewrite Hdiv. simpl Ssz.spec_level.
    rewrite gindex_parity, merkle_path_lookup by lia. fold lvl.
    destruct (half_cases (i / 2 ^ j)) as (q & -> & [(-> & Hq & ->)|(-> & Hq & ->)]).
    + rewrite Hq in IH, Hm.
      destruct (lookup_lt_is_Some_2 lvl (q * 2 + 1)) as [b Hb]; [lia|].
      rewrite (list_lookup_total_correct _ _ _ Hb).
      by apply pair_hashes_lookup.
    + rewrite Hq in IH, Hm.
      destruct (lookup_lt_is_Some_2 lvl (q * 2)) as [a Ha]; [lia|].
      rewrite (list_lookup_total_correct _ _ _ Ha).
      by apply pair_hashes_lookup.
Qed.

(** X3: the two gadgets agree.  When [HashTreeRoot] reduces [2^k] leaves
    to a root, then from any leaf [i] the honest path (the sibling at each
    level) and the gindex [2^k + i] make [RestoreMerkleRoot] return that
    same root. *)
Theorem RestoreMerkleRoot_reaches_HashTreeRoot (Hash : list Z -> Bytes32)
    (leaves : list Bytes32) (k i : nat) (leaf : Bytes32) :
  (k < 63)%nat -> length leaves = (2 ^ k)%nat -> leaves !! i = Some leaf ->
  exists leaves' root,
    Ssz.HashTreeRoot Hash leaves (2 ^ Z.of_nat k) = Ok (leaves', root) /\
    Ssz.RestoreMerkleRoot Hash leaf (merkle_path Hash leaves k i)
      (2 ^ Z.of_nat k + Z.of_nat i) = root.
Proof.
  intros Hk Hlen Hleaf.
  destruct (HashTreeRoot_pow2 Hash leaves k Hk ltac:(lia))
    as (leaves' & root & Hrun & _ & _ & Htop & _).
  exists leaves', root. split; [done|].
  assert (Hi : (i < 2 ^ k)%nat) by (rewrite <- Hlen; by eapply lookup_lt_Some).
  rewrite <- Hlen, firstn_all in Htop.
  unfold Ssz.RestoreMerkleRoot. rewrite restore_state_spec.
  - simpl. unfold merkle_path at 2. rewrite length_map, length_seq.
    pose proof (honest_path_level Hash leaves k i leaf Hlen Hi Hleaf k ltac:(lia)) as Hp.
    rewrite Nat.div_small in Hp by done. rewrite Htop in Hp. by injection Hp.
  - assert (0 < 2 ^ Z.of_nat k) by (apply Z.pow_pos_nonneg; lia). lia.
Qed.

Lemma RestoreMerkleRoot_reaches_HashTreeRoot_witness :
  exists leaves' root,
    Ssz.HashTreeRoot sample_hash [sample_s0; sample_s1; sample_s2; zero_digest]
      (2 ^ Z.of_nat 2) = Ok (leaves', root) /\
    Ssz.RestoreMerkleRoot sample_hash sample_s2
      (merkle_path sample_hash [sample_s0; sample_s1; sample_s2; zero_digest] 2 2)
      (2 ^ Z.of_nat 2 + Z.of_nat 2) = root.
Proof.
  apply (RestoreMerkleRoot_reaches_HashTreeRoot sample_hash
           [sample_s0; sample_s1; sample_s2; zero_digest] 2 2 sample_s2);
    [lia|reflexivity|reflexivity].
Defined.

(** ** The variable-gindex verifier *)

Lemma bytes_lookup_total (v : Bytes32) (i : fin 32) :
  bytes v !!! fin_to_nat i = v !!! i.
Proof. apply list_lookup_total_correct. by apply vlookup_lookup. Qed.

(** The 32 byte equalities hold exactly when the two digests are equal. *)
Lemma byte_assertions_hold (v w : Bytes32) :
  Ssz.satisfied
    (map (fun i => Ssz.AssertEq (bytes v !!! i) (bytes w !!! i)) (seq 0 32)) = true
  <-> v = w.
Proof.
  unfold Ssz.satisfied. rewrite forallb_forall. split.
  - intros Hall. apply vec_eq. intros i.
    rewrite <- !bytes_lookup_total. apply Z.eqb_eq.
    apply (Hall (Ssz.AssertEq (bytes v !!! fin_to_nat i) (bytes w !!! fin_to_nat i))).
    apply in_map_iff. exists (fin_to_nat i). split; [done|].
    apply in_seq. pose proof (fin_to_nat_lt i). lia.
  - intros -> c Hc. apply in_map_iff in Hc as (i & <- & _).
    unfold Ssz.holds. simpl. apply Z.eqb_refl.
Qed.

(** X4: for a gindex that fits the [len(proof)+1]-bit decomposition,
    the 32 byte equalities [VerifyProofWithGIndexVariable] asserts
    between [root] and the root it restored all hold exactly when [root]
    is the root [RestoreMerkleRoot] restores for the same value as a
    constant. *)
Theorem VerifyProofWithGIndexVariable_accepts_root (Hash : list Z -> Bytes32)
    (root leaf : Bytes32) (proof : list Bytes32) (gindex : Z) :
  0 <= gindex < 2 ^ Z.of_nat (length proof + 1) ->
  Ssz.satisfied (Ssz.VerifyProofWithGIndexVariable Hash root leaf proof gindex []) = true
  <-> root = Ssz.RestoreMerkleRoot Hash leaf proof gindex.
Proof.
  intros [Hlo _].
  assert (Hsame : Ssz.RestoreMerkleRootWithGIndexVariable Hash leaf proof gindex =
                  Ssz.RestoreMerkleRoot Hash leaf proof gindex).
  { unfold Ssz.RestoreMerkleRootWithGIndexVariable, Ssz.RestoreMerkleRoot.
    rewrite restore_var_spec by lia. by rewrite restore_state_spec. }
  unfold Ssz.VerifyProofWithGIndexVariable. rewrite Hsame.
  rewrite for_range_assert, app_nil_l. apply byte_assertions_hold.
Qed.

Lemma VerifyProofWithGIndexVariable_accepts_root_witness :
  Ssz.satisfied
    (Ssz.VerifyProofWithGIndexVariable sample_hash
       (Ssz.RestoreMerkleRoot sample_hash zero_digest [sample_s0; sample_s1] 5)
       zero_digest [sample_s0; sample_s1] 5 []) = true.
Proof.
  apply (VerifyProofWithGIndexVariable_accepts_root sample_hash
           (Ssz.RestoreMerkleRoot sample_hash zero_digest [sample_s0; sample_s1] 5)
           zero_digest [sample_s0; sample_s1] 5); [simpl; lia|reflexivity].
Defined.

(** ** HashTreeRoot: the guard and the bounds *)

Section PanicFacts.

Variable Hash : list Z -> Bytes32.

Let bounds_only (o : outcome (list Bytes32)) : Prop :=
  forall msg, o = Panic msg -> msg = "index out of range"%string.

Lemma reduce_step_bounds_only (i : nat) (st : outcome (list Bytes32)) :
  bounds_only st -> bounds_only (Ssz.reduce_step Hash i st).
Proof.
  unfold bounds_only, Ssz.reduce_step, index, assign. intros Hst msg.
  destruct st as [leaves|m0]; [|rewrite bind_Panic; apply Hst].
  rewrite bind_Ok. destruct (leaves !! (i * 2)%nat); [|by intros [= <-]].
  rewrite bind_Ok. destruct (leaves !! (i * 2 + 1)%nat); [|by intros [= <-]].
  rewrite bind_Ok. case_decide; [done|by intros [= <-]].
Qed.

Lemma reduce_steps_bounds_only (n lo : nat) (st : outcome (list Bytes32)) :
  bounds_only st -> bounds_only (for_range lo n (Ssz.reduce_step Hash) st).
Proof.
  revert lo st. induction n as [|n IH]; intros lo st Hst; simpl; [done|].
  apply IH. by apply reduce_step_bounds_only.
Qed.

Lemma reduce_pass_bounds_only (leaves : list Bytes32) (nb : Z) :
  bounds_only (Ssz.reduce_pass Hash leaves nb).
Proof.
  unfold Ssz.reduce_pass. apply reduce_steps_bounds_only. intros msg. done.
Qed.

Lemma reduce_loop_bounds_only (leaves : list Bytes32) (nb : Z) :
  bounds_only (Ssz.reduce_loop Hash leaves nb).
Proof.
  destruct nb as [|p|p]; try (intros msg; done). simpl.
  revert leaves. induction p as [p IH|p IH|]; intros leaves; simpl;
    try (intros msg; done).
  - pose proof (reduce_pass_bounds_only leaves (Z.pos p~1)) as Hp.
    destruct (Ssz.reduce_pass Hash leaves (Z.pos p~1)) as [l'|m0];
      [rewrite bind_Ok; apply IH|rewrite bind_Panic; done].
  - pose proof (reduce_pass_bounds_only leaves (Z.pos p~0)) as Hp.
    destruct (Ssz.reduce_pass Hash leaves (Z.pos p~0)) as [l'|m0];
      [rewrite bind_Ok; apply IH|rewrite bind_Panic; done].
Qed.

(** Past the guard the only panic left is an index out of range. *)
Lemma HashTreeRoot_past_guard (leaves : list Bytes32) (nb : Z) (msg : string) :
  Z.land nb (wrap_int (nb - 1)) = 0 ->
  Ssz.HashTreeRoot Hash leaves nb = Panic msg -> msg = "index out of range"%string.
Proof.
  intros Hg. unfold Ssz.HashTreeRoot. rewrite Hg. simpl negb. cbv iota.
  pose proof (reduce_loop_bounds_only leaves nb) as Hl. unfold bounds_only in Hl.
  destruct (Ssz.reduce_loop Hash leaves nb) as [l'|m0];
    [rewrite bind_Ok|rewrite bind_Panic; intros [= <-]; by apply Hl].
  unfold index. destruct (l' !! 0%nat); [done|by intros [= <-]].
Qed.

End PanicFacts.

Lemma guard_rejects_negative (nb : Z) :
  nb < 0 -> in_int nb -> nb <> int_min -> Z.land nb (wrap_int (nb - 1)) <> 0.
Proof.
  intros Hneg Hint Hmin.
  rewrite wrap_int_id by (unfold in_int, int_min, int_max in *; lia).
  assert (Z.land nb (nb - 1) < 0) by (apply Z.land_neg; lia). lia.
Qed.

(** X5: for a leaf count in the range of [int], [HashTreeRoot] stops
    with "nbLeaves must be a power of 2" exactly when the count is not a
    power of two and is neither 0 nor the minimum [int] (for which
    [nbLeaves-1] wraps around and the guard lets the call through). *)
Theorem HashTreeRoot_guard_rejects_exactly (Hash : list Z -> Bytes32)
    (leaves : list Bytes32) (nbLeaves : Z) :
  in_int nbLeaves ->
  (Ssz.HashTreeRoot Hash leaves nbLeaves = Panic "nbLeaves must be a power of 2" <->
   nbLeaves <> 0 /\ nbLeaves <> int_min /\ forall k : nat, nbLeaves <> 2 ^ Z.of_nat k).
Proof.
  intros Hint. split.
  - intros Hp.
    assert (Hg : Z.land nbLeaves (wrap_int (nbLeaves - 1)) <> 0).
    { intros Hg. by pose proof (HashTreeRoot_past_guard Hash leaves nbLeaves _ Hg Hp). }
    split; [by intros ->|]. split; [by intros ->|].
    intros k ->. apply Hg, guard_passes_pow2.
    destruct (decide (k < 63)%nat) as [|Hk]; [done|].
    assert (2 ^ 63 <= 2 ^ Z.of_nat k) by (apply Z.pow_le_mono_r; lia).
    unfold in_int, int_max in Hint. lia.
  - intros (H0 & Hmin & Hnp). unfold Ssz.HashTreeRoot.
    destruct (Z.eqb_spec (Z.land nbLeaves (wrap_int (nbLeaves - 1))) 0) as [Hg|]; [|done].
    exfalso. destruct (Z.lt_trichotomy nbLeaves 0) as [Hneg|[?|Hpos]]; [|done|].
    + by apply (guard_rejects_negative nbLeaves).
    + by apply (guard_rejects_non_pow2 nbLeaves).
Qed.

Lemma HashTreeRoot_guard_rejects_exactly_witness :
  Ssz.HashTreeRoot sample_hash [sample_s0; sample_s1; sample_s2] (-4) =
    Panic "nbLeaves must be a power of 2" <->
  -4 <> 0 /\ -4 <> int_min /\ forall k : nat, -4 <> 2 ^ Z.of_nat k.
Proof.
  apply (HashTreeRoot_guard_rejects_exactly sample_hash
           [sample_s0; sample_s1; sample_s2] (-4)).
  unfold in_int, int_min, int_max. lia.
Defined.

Section BoundsFacts.

Variable Hash : list Z -> Bytes32.

Lemma reduce_steps_Panic (n lo : nat) (msg : string) :
  for_range lo n (Ssz.reduce_step Hash) (Panic msg) = Panic msg.
Proof. revert lo. induction n as [|n IH]; intros lo; simpl; [done|apply IH]. Qed.

(** The passes overwrite entries and never change the length. *)
Lemma reduce_steps_length (len n lo : nat) (st : outcome (list Bytes32)) (t : list Bytes32) :
  (forall t0, st = Ok t0 -> length t0 = len) ->
  for_range lo n (Ssz.reduce_step Hash) st = Ok t -> length t = len.
Proof.
  revert lo st. induction n as [|n IH]; intros lo st Hst; simpl; [apply Hst|].
  apply IH. intros t0. unfold Ssz.reduce_step, index, assign.
  destruct st as [t1|m]; [|done]. rewrite bind_Ok.
  destruct (t1 !! (lo * 2)%nat); [|done]. rewrite bind_Ok.
  destruct (t1 !! (lo * 2 + 1)%nat); [|done]. rewrite bind_Ok.
  case_decide; [|done]. intros [= <-]. rewrite length_insert. by apply Hst.
Qed.

Lemma half_of_double (n : nat) : Z.to_nat (go_div (Z.of_nat (2 * n)) 2) = n.
Proof.
  unfold go_div. rewrite Z.quot_div_nonneg by lia.
  rewrite Nat2Z.inj_mul, Z.mul_comm, Z.div_mul by lia. lia.
Qed.

(** A pass over more entries than the slice holds runs into the end of
    the slice. *)
Lemma reduce_pass_short (leaves : list Bytes32) (n : nat) :
  (length leaves < 2 * n)%nat ->
  exists msg, Ssz.reduce_pass Hash leaves (Z.of_nat (2 * n)) = Panic msg.
Proof.
  intros Hshort. unfold Ssz.reduce_pass. rewrite half_of_double.
  set (i0 := (length leaves / 2)%nat).
  pose proof (Nat.div_mod_eq (length leaves) 2) as Hdm.
  pose proof (Nat.mod_upper_bound (length leaves) 2 ltac:(lia)) as Hm.
  fold i0 in Hdm.
  replace n with (i0 + S (n - S i0))%nat by lia.
  rewrite for_range_app, Nat.add_0_l. simpl.
  destruct (for_range 0 i0 (Ssz.reduce_step Hash) (Ok leaves)) as [t|m] eqn:E.
  - assert (Hlen : length t = length leaves).
    { apply (reduce_steps_length _ i0 0%nat (Ok leaves)); [|done]. by intros t0 [= <-]. }
    assert (Hnone : t !! (i0 * 2 + 1)%nat = None) by (apply lookup_ge_None_2; lia).
    unfold Ssz.reduce_step at 2. unfold index. rewrite bind_Ok, Hnone.
    destruct (t !! (i0 * 2)%nat); rewrite ?bind_Ok, ?bind_Panic, reduce_steps_Panic;
      by eexists.
  - unfold Ssz.reduce_step at 2. rewrite bind_Panic, reduce_steps_Panic. by eexists.
Qed.

End BoundsFacts.

(** X6: a power-of-two leaf count [2^k > 1] larger than the slice is not
    caught by the guard; the first pass reads past the end of the slice
    and the call panics with an index out of range. *)
Theorem HashTreeRoot_short_slice_panics (Hash : list Z -> Bytes32)
    (leaves : list Bytes32) (k : nat) :
  (0 < k < 63)%nat -> (length leaves < 2 ^ k)%nat ->
  Ssz.HashTreeRoot Hash leaves (2 ^ Z.of_nat k) = Panic "index out of range".
Proof.
  intros [Hk0 Hk] Hshort.
  pose proof (guard_passes_pow2 k Hk) as Hg.
  assert (Hex : exists msg, Ssz.HashTreeRoot Hash leaves (2 ^ Z.of_nat k) = Panic msg).
  { unfold Ssz.HashTreeRoot. rewrite Hg. simpl negb. cbv iota.
    replace (2 ^ Z.of_nat k) with (Z.of_nat (2 * 2 ^ (k - 1))).
    - rewrite reduce_loop_unfold.
      pose proof (pow2_pos (k - 1)).
      replace (1 <? Z.of_nat (2 * 2 ^ (k - 1))) with true
        by (symmetry; apply Z.ltb_lt; lia).
      destruct (reduce_pass_short Hash leaves (2 ^ (k - 1))) as [msg ->].
      + rewrite <- Nat.pow_succ_r'. by replace (S (k - 1)) with k by lia.
      + rewrite !bind_Panic. by eexists.
    - rewrite <- Nat.pow_succ_r', Nat2Z.inj_pow. by replace (S (k - 1)) with k by lia. }
  destruct Hex as [msg Hmsg]. rewrite Hmsg. f_equal.
  by apply (HashTreeRoot_past_guard Hash leaves (2 ^ Z.of_nat k)).
Qed.

Lemma HashTreeRoot_short_slice_panics_witness :
  Ssz.HashTreeRoot sample_hash [sample_s0; sample_s1; sample_s2] (2 ^ Z.of_nat 2) =
  Panic "index out of range".
Proof.
  apply (HashTreeRoot_short_slice_panics sample_hash [sample_s0; sample_s1; sample_s2] 2);
    simpl; lia.
Defined.

(** X7: [HashTreeRoot] reads nothing beyond the first [nbLeaves] entries:
    two slices that agree on their first [2^k] entries are reduced to the
    same root. *)
Theorem HashTreeRoot_reads_only_nbLeaves (Hash : list Z -> Bytes32)
    (l1 l2 : list Bytes32) (k : nat) :
  (k < 63)%nat -> (2 ^ k <= length l1)%nat ->
  take (2 ^ k) l1 = take (2 ^ k) l2 ->
  exists s1 s2 root,
    Ssz.HashTreeRoot Hash l1 (2 ^ Z.of_nat k) = Ok (s1, root) /\
    Ssz.HashTreeRoot Hash l2 (2 ^ Z.of_nat k) = Ok (s2, root).
Proof.
  intros Hk Hlen Htake.
  assert (Hlen2 : (2 ^ k <= length l2)%nat).
  { apply (f_equal length) in Htake. rewrite !length_take in Htake. lia. }
  destruct (HashTreeRoot_pow2 Hash l1 k Hk Hlen) as (s1 & r1 & Hr1 & _ & _ & Ht1 & _).
  destruct (HashTreeRoot_pow2 Hash l2 k Hk Hlen2) as (s2 & r2 & Hr2 & _ & _ & Ht2 & _).
  rewrite Htake, Ht2 in Ht1. injection Ht1 as ->.
  by exists s1, s2, r1.
Qed.

Lemma HashTreeRoot_reads_only_nbLeaves_witness :
  exists s1 s2 root,
    Ssz.HashTreeRoot sample_hash [sample_s0; sample_s1; sample_s2] (2 ^ Z.of_nat 1)
      = Ok (s1, root) /\
    Ssz.HashTreeRoot sample_hash [sample_s0; sample_s1; zero_digest; zero_digest]
      (2 ^ Z.of_nat 1) = Ok (s2, root).
Proof.
  apply (HashTreeRoot_reads_only_nbLeaves sample_hash [sample_s0; sample_s1; sample_s2]
           [sample_s0; sample_s1; zero_digest; zero_digest] 1);
    [lia|simpl; lia|reflexivity].
Defined.

(** * Further properties of the circuit-function pipeline *)

(** X8: after [SetWitness], the constraints [Define] records hold exactly
    when the embedded circuit's own constraints hold and the bytes on the
    input wires have the same truncated hash as [inputBytes]; the output
    binding always holds. *)
Theorem Define_holds_after_SetWitness (sha256 : list Z -> list Z)
    (Ckt : Type) (H : Succinct.Circuit Ckt)
    (inputBytes : list Z) (f : Succinct.CircuitFunction) (api : Succinct.frontend) :
  let f' := fst (Succinct.SetWitness sha256 inputBytes f) in
  Succinct.satisfied (fst (Succinct.Define sha256 api f')) = true <->
  Succinct.satisfied (fst (Succinct.circuit_Define api (Succinct.circuit f'))) = true /\
  Succinct.HashAndTruncate sha256
    (Succinct.load Succinct.GetInputBytes (Succinct.circuit f')) 253 =
  Succinct.HashAndTruncate sha256 inputBytes 253.
Proof.
  intros f'. rewrite Define_appends_hash_binding.
  unfold Succinct.satisfied. rewrite forallb_app, andb_true_iff.
  apply and_iff_compat_l. unfold Succinct.holds. simpl.
  rewrite Z.eqb_refl, andb_true_r, Z.eqb_eq. split; intros Heq; by rewrite Heq.
Qed.

Lemma Import_success {CS PK VK : Type} (env : Succinct.os CS PK)
    (b : Succinct.CircuitBuild CS PK VK) :
  fst (Succinct.ImportCircuitBuild env) = Succinct.Success b ->
  Succinct.pk_ReadFrom env = Succinct.Success (Succinct.pk b) /\
  Succinct.r1cs_ReadFrom env = Succinct.Success (Succinct.r1cs b) /\
  Succinct.vk b = None.
Proof.
  unfold Succinct.ImportCircuitBuild.
  destruct (Succinct.os_Open env "build/pkey.bin"); [done|].
  destruct (Succinct.pk_ReadFrom env) as [pkey|]; [|done].
  destruct (Succinct.os_Open env "build/r1cs.bin"); [done|].
  destruct (Succinct.r1cs_ReadFrom env) as [cs|]; [|done].
  simpl. by intros [= <-].
Qed.

(** X9: a build that comes from [ImportCircuitBuild] cannot be exported:
    in any environment [Export] writes neither [build/vkey.bin] nor the
    verifier contract, and when everything up to creating
    [build/vkey.bin] succeeds it stops on the unset verifying key, after
    which only the deferred closes run. *)
Theorem Export_of_imported_build (CS PK VK : Type) (env env' : Succinct.os CS PK)
    (b : Succinct.CircuitBuild CS PK VK) :
  fst (Succinct.ImportCircuitBuild env) = Succinct.Success b ->
  ~ In (Succinct.Write "build/vkey.bin") (Succinct.Export env' b) /\
  ~ In (Succinct.Write "build/FunctionVerifier.sol") (Succinct.Export env' b) /\
  (Succinct.os_MkdirAll env' "build" = None ->
   Succinct.os_Create env' "build/r1cs.bin" = None ->
   Succinct.WriteTo env' "build/r1cs.bin" = None ->
   Succinct.os_Create env' "build/pkey.bin" = None ->
   Succinct.WriteTo env' "build/pkey.bin" = None ->
   Succinct.os_Create env' "build/vkey.bin" = None ->
   Succinct.Export env' b =
   [ Succinct.MkdirAll "build";
     Succinct.Create "build/r1cs.bin"; Succinct.Write "build/r1cs.bin";
     Succinct.Create "build/pkey.bin"; Succinct.Write "build/pkey.bin";
     Succinct.Create "build/vkey.bin"; Succinct.NilDereference;
     Succinct.Close "build/vkey.bin"; Succinct.Close "build/pkey.bin";
     Succinct.Close "build/r1cs.bin" ]).
Proof.
  intros Himp. apply Import_success in Himp as (_ & _ & Hvk).
  unfold Succinct.Export. rewrite Hvk.
  split; [|split].
  - destruct (Succinct.os_MkdirAll env' "build"),
      (Succinct.os_Create env' "build/r1cs.bin"),
      (Succinct.WriteTo env' "build/r1cs.bin"),
      (Succinct.os_Create env' "build/pkey.bin"),
      (Succinct.WriteTo env' "build/pkey.bin"),
      (Succinct.os_Create env' "build/vkey.bin"); simpl; intuition discriminate.
  - destruct (Succinct.os_MkdirAll env' "build"),
      (Succinct.os_Create env' "build/r1cs.bin"),
      (Succinct.WriteTo env' "build/r1cs.bin"),
      (Succinct.os_Create env' "build/pkey.bin"),
      (Succinct.WriteTo env' "build/pkey.bin"),
      (Succinct.os_Create env' "build/vkey.bin"); simpl; intuition discriminate.
  - by intros -> -> -> -> -> ->.
Qed.

Lemma Export_of_imported_build_witness :
  ~ In (Succinct.Write "build/vkey.bin")
       (Succinct.Export (sample_os (Succinct.Success 2%nat) (Succinct.Success []))
          {| Succinct.pk := 2%nat; Succinct.vk := @None nat; Succinct.r1cs := [] |}).
Proof.
  apply (Export_of_imported_build _ _ nat
           (sample_os (Succinct.Success 2%nat) (Succinct.Success []))
           (sample_os (Succinct.Success 2%nat) (Succinct.Success []))
           {| Succinct.pk := 2%nat; Succinct.vk := None; Succinct.r1cs := [] |}).
  reflexivity.
Defined.

(** X10: neither [Export] nor [ImportCircuitBuild] leaks a file handle:
    whatever fails, and also when [Export] stops on an unset verifying
    key, the files closed are exactly the files created or opened, in the
    reverse order. *)
Theorem files_closed_in_reverse (CS PK VK : Type) (env : Succinct.os CS PK)
    (build : Succinct.CircuitBuild CS PK VK) :
  released (Succinct.Export env build) = rev (acquired (Succinct.Export env build)) /\
  released (snd (@Succinct.ImportCircuitBuild CS PK VK env)) =
    rev (acquired (snd (@Succinct.ImportCircuitBuild CS PK VK env))).
Proof.
  split.
  - unfold Succinct.Export.
    destruct (Succinct.vk build);
      repeat match goal with
             | |- context [match ?a with Some _ => _ | None => _ end] =>
                 destruct a; try reflexivity
             end.
  - unfold Succinct.ImportCircuitBuild.
    repeat match goal with
           | |- context [match ?a with Some _ => _ | None => _ end] =>
               destruct a; try reflexivity
           | |- context [match ?a with Succinct.Success _ => _ | Succinct.Failure _ => _ end] =>
               destruct a; try reflexivity
           end.
Qed.

(** X11: [Export] writes the verifier contract exactly when the build has
    a verifying key and every one of the nine steps succeeds. *)
Theorem Export_writes_contract_iff (CS PK VK : Type) (env : Succinct.os CS PK)
    (build : Succinct.CircuitBuild CS PK VK) :
  In (Succinct.Write "build/FunctionVerifier.sol") (Succinct.Export env build) <->
  Succinct.vk build <> None /\
  Forall (fun st => Succinct.answer st = None) (Succinct.export_steps env).
Proof.
  unfold Succinct.Export, Succinct.export_steps. rewrite !Forall_cons. simpl.
  destruct (Succinct.vk build) as [v|].
  - repeat match goal with
           | |- context [match ?a with Some _ => _ | None => _ end] =>
               destruct a;
               [solve [simpl; intuition (discriminate || congruence)]|]
           end.
    simpl. intuition (discriminate || congruence || auto).
  - repeat match goal with
           | |- context [match ?a with Some _ => _ | None => _ end] =>
               destruct a;
               [solve [simpl; intuition (discriminate || congruence)]|]
           end.
    simpl. intuition (discriminate || congruence).
Qed.

Lemma slice_chain_short {B : Type} (raw : go_slice Z) (k : list Z -> list Z -> list Z ->
    list Z -> list Z -> list Z -> list Z -> list Z -> outcome B) :
  (cap raw < 256)%nat ->
  (a0 ← slice raw (Succinct.fpSize * 0) (Succinct.fpSize * 1);
   a1 ← slice raw (Succinct.fpSize * 1) (Succinct.fpSize * 2);
   b00 ← slice raw (Succinct.fpSize * 2) (Succinct.fpSize * 3);
   b01 ← slice raw (Succinct.fpSize * 3) (Succinct.fpSize * 4);
   b10 ← slice raw (Succinct.fpSize * 4) (Succinct.fpSize * 5);
   b11 ← slice raw (Succinct.fpSize * 5) (Succinct.fpSize * 6);
   c0 ← slice raw (Succinct.fpSize * 6) (Succinct.fpSize * 7);
   c1 ← slice raw (Succinct.fpSize * 7) (Succinct.fpSize * 8);
   k a0 a1 b00 b01 b10 b11 c0 c1) = Panic "slice bounds out of range".
Proof.
  intros Hshort. unfold slice, Succinct.fpSize. change (4 * 8)%nat with 32%nat.
  repeat match goal with
         | |- mbind _ (if decide ?P then _ else _) = _ =>
             destruct (decide P); [rewrite bind_Ok|reflexivity]
         end.
  lia.
Qed.

(** X12: how [Prove] ends.  A witness or prover failure comes back
    wrapped, with the function left as [SetWitness] set it.  Once the
    prover has succeeded, the length of the raw serialisation is never
    looked at: a proof is returned whenever the buffer's capacity reaches
    256 bytes, even when fewer were written, and a smaller capacity is not
    an error but a panic on the slice bounds. *)
Theorem Prove_failures (sha256 : list Z -> list Z)
    (Ckt : Type) (H : Succinct.Circuit Ckt)
    (ConstraintSystem ProvingKey VerifyingKey Witness Proof Entropy : Type)
    (NewWitness : Succinct.CircuitFunction -> Succinct.result Witness)
    (groth16_Prove :
       ConstraintSystem -> ProvingKey -> Witness -> Entropy -> Succinct.result Proof)
    (WriteRawTo : Proof -> go_slice Z)
    (entropy : Entropy) (inputBytes : list Z)
    (build : Succinct.CircuitBuild ConstraintSystem ProvingKey VerifyingKey)
    (f : Succinct.CircuitFunction) :
  let f1 := fst (Succinct.SetWitness sha256 inputBytes f) in
  let out := snd (Succinct.SetWitness sha256 inputBytes f) in
  let run :=
    Succinct.Prove sha256 NewWitness groth16_Prove WriteRawTo entropy inputBytes build f in
  (forall err, NewWitness f1 = Succinct.Failure err ->
     run = Ok (Succinct.Failure (Succinct.Wrapped "failed to create witness" err), f1, out)) /\
  (forall witness err,
     NewWitness f1 = Succinct.Success witness ->
     groth16_Prove (Succinct.r1cs build) (Succinct.pk build) witness entropy
       = Succinct.Failure err ->
     run = Ok (Succinct.Failure (Succinct.Wrapped "failed to generate proof" err), f1, out)) /\
  (forall witness proof,
     NewWitness f1 = Succinct.Success witness ->
     groth16_Prove (Succinct.r1cs build) (Succinct.pk build) witness entropy
       = Succinct.Success proof ->
     ((256 <= cap (WriteRawTo proof))%nat ->
      exists p, run = Ok (Succinct.Success p, f1, out)) /\
     ((cap (WriteRawTo proof) < 256)%nat ->
      run = Panic "slice bounds out of range")).
Proof.
  intros f1 out run. split; [|split].
  - intros err Hw. subst run f1 out. unfold Succinct.Prove.
    destruct (Succinct.SetWitness sha256 inputBytes f) as [f1 out] eqn:Esw. simpl in *.
    by rewrite Hw.
  - intros witness err Hw Hp. subst run f1 out. unfold Succinct.Prove.
    destruct (Succinct.SetWitness sha256 inputBytes f) as [f1 out] eqn:Esw. simpl in *.
    by rewrite Hw, Hp.
  - intros witness proof Hw Hp. split.
    + intros Hcap. by apply (Prove_succeeds _ _ _ _ _ _ _ _ _ _ _ _ _ _ _ _ witness proof).
    + intros Hshort. subst run f1 out. unfold Succinct.Prove.
      destruct (Succinct.SetWitness sha256 inputBytes f) as [f1 out] eqn:Esw. simpl in *.
      rewrite Hw, Hp. by apply slice_chain_short.
Qed.

Lemma Prove_failures_witness :
  (exists p f' out,
     @Succinct.Prove sample_sha256 _ (test_circuit None) Succinct.frontend nat nat _ _ _
       sample_NewWitness (fun _ _ _ (_ : unit) => Succinct.Success [0; 1; 2])
       (roomy_buffer (replicate 300 0)) tt [1; 2; 3]
       sample_build (Succinct.NewCircuitFunction empty_circuit)
     = Ok (Succinct.Success p, f', out)) /\
  @Succinct.Prove sample_sha256 _ (test_circuit None) Succinct.frontend nat nat _ _ _
    sample_NewWitness (fun _ _ _ (_ : unit) => Succinct.Success [0; 1; 2])
    exact_buffer tt [1; 2; 3]
    sample_build (Succinct.NewCircuitFunction empty_circuit)
  = Panic "slice bounds out of range".
Proof.
  split.
  - destruct (Prove_failures sample_sha256 TestCircuit (test_circuit None)
                Succinct.frontend nat nat (list Z) (list Z) unit
                sample_NewWitness (fun _ _ _ _ => Succinct.Success [0; 1; 2])
                (roomy_buffer (replicate 300 0)) tt [1; 2; 3]
                sample_build (Succinct.NewCircuitFunction empty_circuit))
      as (_ & _ & Hproved).
    destruct (Hproved [1; 2; 3] [0; 1; 2] eq_refl eq_refl) as [Hroomy _].
    destruct Hroomy as [p Hp]; [vm_compute; lia|]. by eexists _, _, _.
  - destruct (Prove_failures sample_sha256 TestCircuit (test_circuit None)
                Succinct.frontend nat nat (list Z) (list Z) unit
                sample_NewWitness (fun _ _ _ _ => Succinct.Success [0; 1; 2])
                exact_buffer tt [1; 2; 3]
                sample_build (Succinct.NewCircuitFunction empty_circuit))
      as (_ & _ & Hproved).
    destruct (Hproved [1; 2; 3] [0; 1; 2] eq_refl eq_refl) as [_ Hshort].
    apply Hshort. vm_compute. lia.
Defined.

(** X16: what [Build] hands on.  A build it returns holds the constraint
    system compiled from the embedded circuit's constraints followed by
    the two hash bindings, the keys [Setup] made from it, verifying key
    included; so, unlike an imported build, it exports in full whenever
    no step fails: four files written in order and closed in reverse. *)
Theorem Build_then_Export (sha256 : list Z -> list Z)
    (Ckt : Type) (H : Succinct.Circuit Ckt) (CS PK VK : Type)
    (compile_constraints : Succinct.frontend -> Succinct.result CS)
    (define_error : Succinct.error -> Succinct.error)
    (groth16_Setup : CS -> Succinct.result (PK * VK))
    (f : Succinct.CircuitFunction) (b : Succinct.CircuitBuild CS PK VK)
    (env : Succinct.os CS PK) :
  Succinct.Build sha256 compile_constraints define_error groth16_Setup f
    = Succinct.Success b ->
  (exists vkey,
     compile_constraints
       (fst (Succinct.circuit_Define [] (Succinct.circuit f)) ++
        [ Succinct.AssertEq (Succinct.cf_InputHash f)
            (Some (Succinct.HashAndTruncate sha256
                     (Succinct.load Succinct.GetInputBytes (Succinct.circuit f)) 253));
          Succinct.AssertEq (Succinct.cf_OutputHash f)
            (Some (Succinct.HashAndTruncate sha256
                     (Succinct.load Succinct.GetOutputBytes (Succinct.circuit f)) 253)) ])
       = Succinct.Success (Succinct.r1cs b) /\
     groth16_Setup (Succinct.r1cs b) = Succinct.Success (Succinct.pk b, vkey) /\
     Succinct.vk b = Some vkey) /\
  (Forall (fun st => Succinct.answer st = None) (Succinct.export_steps env) ->
   Succinct.Export env b =
   [ Succinct.MkdirAll "build";
     Succinct.Create "build/r1cs.bin"; Succinct.Write "build/r1cs.bin";
     Succinct.Create "build/pkey.bin"; Succinct.Write "build/pkey.bin";
     Succinct.Create "build/vkey.bin"; Succinct.Write "build/vkey.bin";
     Succinct.Create "build/FunctionVerifier.sol";
     Succinct.Write "build/FunctionVerifier.sol";
     Succinct.Close "build/FunctionVerifier.sol"; Succinct.Close "build/vkey.bin";
     Succinct.Close "build/pkey.bin"; Succinct.Close "build/r1cs.bin" ]).
Proof.
  intros Hb. unfold Succinct.Build, Succinct.Compile in Hb.
  pose proof (Define_appends_hash_binding sha256 Ckt H [] f) as Hdef.
  destruct (Succinct.Define sha256 [] f) as [api e] eqn:Edef.
  assert (He : e = None).
  { unfold Succinct.Define in Edef.
    destruct (Succinct.circuit_Define [] (Succinct.circuit f)). by injection Edef as _ <-. }
  subst e. simpl in Hdef. subst api.
  destruct (compile_constraints _) as [cs|] eqn:Ecs; [|done].
  destruct (groth16_Setup cs) as [[pkey vkey]|] eqn:Esetup; [|done].
  injection Hb as <-. simpl. split; [by exists vkey|].
  intros Hall. rewrite Export_run_steps by done.
  rewrite run_steps_success by done. reflexivity.
Qed.

Lemma Build_then_Export_witness :
  exists b,
    @Succinct.Build sample_sha256 _ (test_circuit None) _ _ _
      sample_compile sample_define_error sample_Setup
      (Succinct.NewCircuitFunction empty_circuit) = Succinct.Success b /\
    In (Succinct.Write "build/vkey.bin")
       (Succinct.Export (sample_os (Succinct.Success 2%nat) (Succinct.Success [])) b).
Proof.
  assert (Hrun : exists b,
            @Succinct.Build sample_sha256 _ (test_circuit None) _ _ _
              sample_compile sample_define_error sample_Setup
              (Succinct.NewCircuitFunction empty_circuit) = Succinct.Success b)
    by (eexists; vm_compute; reflexivity).
  destruct Hrun as [b Hrun]. exists b. split; [exact Hrun|].
  destruct (Build_then_Export _ _ _ _ _ _ _ _ _ _ b
              (sample_os (Succinct.Success 2%nat) (Succinct.Success [])) Hrun)
    as [_ Hexport].
  rewrite Hexport; [simpl; auto 10|repeat constructor].
Defined.

(** * Properties of the command line *)

Ltac run_cases :=
  repeat match goal with
         | |- context [match ?x with (_, _) => _ end] => destruct x
         | |- context [match ?x with Succinct.Success _ => _ | Succinct.Failure _ => _ end] =>
             destruct x
         | |- context [match ?x with Some _ => _ | None => _ end] => destruct x
         | |- context [if ?b then _ else _] => destruct b
         end.

Section ExitStatus.

Context {World R1CS PK VK Proof PublicWitness : Type}.
Variable c : Cli.collaborators World R1CS PK VK Proof PublicWitness.

(** What a phase keeps: from a log without errors it either goes on with
    a log without errors, or exits with status 1 right after logging its
    one error. *)
Let sound (p : Cli.phase World) : Prop :=
  forall w l, existsb Cli.is_error l = false ->
    match p w l with
    | inl r =>
        Cli.exit_code r = 1 /\
        Cli.is_error <$> last (Cli.log r) = Some true /\
        existsb Cli.is_error (removelast (Cli.log r)) = false
    | inr (_, l') => existsb Cli.is_error l' = false
    end.

Ltac close_phase Hl :=
  unfold Cli.exit1; run_cases; simpl;
  rewrite ?last_snoc, ?removelast_last, ?existsb_app, ?Hl; simpl; auto.

Lemma compile_phase_sound (fl : Cli.flags) : sound (Cli.compile_phase c fl).
Proof. intros w l Hl. unfold Cli.compile_phase. close_phase Hl. Qed.

Lemma prove_phase_sound (fl : Cli.flags) : sound (Cli.prove_phase c fl).
Proof. intros w l Hl. unfold Cli.prove_phase. close_phase Hl. Qed.

Lemma verify_phase_sound (fl : Cli.flags) : sound (Cli.verify_phase c fl).
Proof. intros w l Hl. unfold Cli.verify_phase. close_phase Hl. Qed.

Lemma main_sound (fl : Cli.flags) (w : World) :
  let r := Cli.main c fl w in
  (Cli.exit_code r = 0 /\ existsb Cli.is_error (Cli.log r) = false) \/
  (Cli.exit_code r = 1 /\
   Cli.is_error <$> last (Cli.log r) = Some true /\
   existsb Cli.is_error (removelast (Cli.log r)) = false).
Proof.
  unfold Cli.main.
  destruct (String.eqb (Cli.circuitPath fl) ""); [right; simpl; auto|].
  destruct (String.eqb (Cli.dataPath fl) ""); [right; simpl; auto|].
  set (l0 := [Cli.LogDebug _; Cli.LogDebug _]).
  assert (H0 : existsb Cli.is_error l0 = false) by done.
  pose proof (compile_phase_sound fl w l0 H0) as H1.
  destruct (Cli.compile_phase c fl w l0) as [r|[w1 l1]]; [by right|].
  pose proof (prove_phase_sound fl w1 l1 H1) as H2.
  destruct (Cli.prove_phase c fl w1 l1) as [r|[w2 l2]]; [by right|].
  pose proof (verify_phase_sound fl w2 l2 H2) as H3.
  destruct (Cli.verify_phase c fl w2 l2) as [r|[w3 l3]]; [by right|].
  left. simpl. auto.
Qed.

End ExitStatus.

(** X14: the exit status tells whether an error was logged.  A run that
    returns normally (status 0) logged no error; any other run exits with
    status 1 and the last thing it logged is its only error. *)
Theorem main_exit_status (World R1CS PK VK Proof PublicWitness : Type)
    (c : Cli.collaborators World R1CS PK VK Proof PublicWitness)
    (fl : Cli.flags) (w : World) :
  let r := Cli.main c fl w in
  (Cli.exit_code r = 0 /\ existsb Cli.is_error (Cli.log r) = false) \/
  (Cli.exit_code r = 1 /\
   Cli.is_error <$> last (Cli.log r) = Some true /\
   existsb Cli.is_error (removelast (Cli.log r)) = false).
Proof. apply main_sound. Qed.

(** X15: with an empty circuit path or an empty data path [main] exits
    with status 1 before it calls anything: the world is untouched and the
    only thing logged is the error that asks for the missing path, the
    circuit path first, whatever the mode flags say. *)
Theorem main_needs_both_paths (World R1CS PK VK Proof PublicWitness : Type)
    (c : Cli.collaborators World R1CS PK VK Proof PublicWitness)
    (fl : Cli.flags) (w : World) :
  Cli.circuitPath fl = ""%string \/ Cli.dataPath fl = ""%string ->
  Cli.world (Cli.main c fl w) = w /\
  Cli.exit_code (Cli.main c fl w) = 1 /\
  Cli.log (Cli.main c fl w) =
    [Cli.LogError
       (if decide (Cli.circuitPath fl = ""%string)
        then "please specify a path to circuit dir (containing verifier_only_circuit_data and proof_with_public_inputs)"
        else "please specify a path to data dir (where the compiled gnark circuit data will be)")].
Proof.
  intros Hempty. unfold Cli.main.
  destruct (String.eqb_spec (Cli.circuitPath fl) "") as [Hc|Hc].
  - by rewrite decide_True.
  - rewrite decide_False by done.
    destruct (String.eqb_spec (Cli.dataPath fl) "") as [Hd|Hd]; [done|].
    by destruct Hempty.
Qed.

Lemma main_needs_both_paths_witness :
  Cli.world (Cli.main sample_collaborators (sample_flags "circuit" "") 0%nat) = 0%nat /\
  Cli.exit_code (Cli.main sample_collaborators (sample_flags "circuit" "") 0%nat) = 1 /\
  Cli.log (Cli.main sample_collaborators (sample_flags "circuit" "") 0%nat) =
    [Cli.LogError
       "please specify a path to data dir (where the compiled gnark circuit data will be)"].
Proof.
  apply (main_needs_both_paths _ _ _ _ _ _ sample_collaborators
           (sample_flags "circuit" "") 0%nat).
  right. reflexivity.
Defined.
